(** * A Mamdani fuzzy inference core (fuzzy.py), embedded and verified

    The Python module works on numbers (ints and floats mixed freely: the
    demos build their universes from [range]).  They are modelled here as
    canonical rationals [Qc]: exact arithmetic, a decidable total order and
    Leibniz equality, so that [==] on numbers is [=].  Rounding, infinities
    and NaN are outside this model; the one question that hangs on rounding,
    whether a denominator can vanish, is put to a second embedding of
    [triangular] over ints and binary64 floats, [Binary64].

    Python exceptions are modelled by an error monad: every callable the
    program receives from its user (the rule under a membership function,
    the antecedent of a rule) may raise, and so may [/] and [d[k]]. *)

From Stdlib Require Import List Bool String ZArith QArith Qcanon Lia Lqa.
From Stdlib Require Import SpecFloat.
From Stdlib Require Import Permutation.
Import ListNotations.

Set Implicit Arguments.
Open Scope Qc_scope.

(** ** Exceptions *)

Inductive exn : Type :=
| ZeroDivisionError
| KeyError (key : string)
| KeyErrorNum (key : Qc)
| Raised (what : string).

Inductive result (A : Type) : Type :=
| ok (a : A)
| raise (e : exn).

Arguments ok {A} a.
Arguments raise {A} e.

Definition bind {A B : Type} (r : result A) (k : A -> result B) : result B :=
  match r with
  | ok a => k a
  | raise e => raise e
  end.

Notation "x <- r ;; k" := (bind r (fun x => k))
  (at level 61, r at next level, right associativity).

Definition is_ok {A : Type} (r : result A) : Prop :=
  match r with ok _ => True | raise _ => False end.

(** Whether a computation returned, as a test. *)
Definition returns {A : Type} (r : result A) : bool :=
  match r with ok _ => true | raise _ => false end.

(** The value of a computation that returned; [0] is a placeholder for one
    that raised, and is only ever used under an [is_ok] hypothesis. *)
Definition value_of (r : result Qc) : Qc :=
  match r with ok v => v | raise _ => 0 end.

(** ** Numbers: comparisons, [max], [min], [/] *)

Definition Qcltb (x y : Qc) : bool :=
  match x ?= y with Lt => true | _ => false end.

Definition Qcleb (x y : Qc) : bool :=
  match x ?= y with Gt => false | _ => true end.

Definition Qceqb (x y : Qc) : bool :=
  match x ?= y with Eq => true | _ => false end.

Definition Qcgtb (x y : Qc) : bool := Qcltb y x.
Definition Qcgeb (x y : Qc) : bool := Qcleb y x.

(** Python's two-argument [max(a, b)] keeps [a] unless [b > a];
    [min(a, b)] keeps [a] unless [b < a]. *)
Definition py_max (a b : Qc) : Qc := if Qcgtb b a then b else a.
Definition py_min (a b : Qc) : Qc := if Qcltb b a then b else a.

(** Python's true division raises on a zero divisor. *)
Definition py_div (x y : Qc) : result Qc :=
  if Qceqb y 0 then raise ZeroDivisionError else ok (x / y).

(** [sum(iterable)] starts from 0 and adds from the left. *)
Definition py_sum (l : list Qc) : Qc := fold_left Qcplus l 0.

(** ** Display names

    Names are built with f-strings.  The numeric arguments of a format are
    kept as numbers rather than rendered, so a name is the format together
    with its arguments. *)

Inductive display_name : Type :=
| Name (s : string)
| tri_ (a b c : Qc)                  (* f"tri_{a}_{b}_{c}" *)
| trap_ (a b c d : Qc)               (* f"trap_{a}_{b}_{c}_{d}" *)
| not_ (n : display_name)            (* f"not_{n}" *)
| and_ (n m : display_name)          (* f"({n}_and_{m})" *)
| or_ (n m : display_name).          (* f"({n}_or_{m})" *)

(** Truthiness of a name: only the empty string is falsy. *)
Definition truthy (n : display_name) : bool :=
  match n with
  | Name EmptyString => false
  | _ => true
  end.

(** A Python callable on numbers: its [__name__] and what calling it does. *)
Record pyfun : Type := Pyfun {
  fn_name : string;
  fn_call : Qc -> result Qc
}.

(** ** class MembershipFunction *)

Module MembershipFunction.

Record t : Type := Make {
  func : pyfun;
  name : display_name
}.

(** [__init__(self, func, name=None)]: [self.name = name or func.__name__]. *)
Definition init (func : pyfun) (nm : option display_name) : t :=
  Make func
       (match nm with
        | Some n => if truthy n then n else Name (fn_name func)
        | None => Name (fn_name func)
        end).

(** [__call__(self, x)]: [max(0.0, min(1.0, self.func(x)))]. *)
Definition call (self : t) (x : Qc) : result Qc :=
  raw <- fn_call (func self) x ;;
  ok (py_max 0 (py_min 1 raw)).

End MembershipFunction.

(** ** triangular and trapezoidal *)

Definition triangular_mu (a b c : Qc) (x : Qc) : result Qc :=
  if Qcleb x a || Qcgeb x c then ok 0
  else if Qcltb x b then py_div (x - a) (b - a)
  else py_div (c - x) (c - b).

Definition triangular (a b c : Qc) : MembershipFunction.t :=
  MembershipFunction.init (Pyfun "mu" (triangular_mu a b c)) (Some (tri_ a b c)).

Definition trapezoidal_mu (a b c d : Qc) (x : Qc) : result Qc :=
  if Qcleb x a || Qcgeb x d then ok 0
  else if Qcltb a x && Qcltb x b then py_div (x - a) (b - a)
  else if Qcleb b x && Qcleb x c then ok 1
  else py_div (d - x) (d - c).

Definition trapezoidal (a b c d : Qc) : MembershipFunction.t :=
  MembershipFunction.init (Pyfun "mu" (trapezoidal_mu a b c d))
                          (Some (trap_ a b c d)).

(** ** Dictionaries keyed by numbers

    A Python dict keeps its keys in insertion order and assigning to a key
    already present replaces the value in place.  The table is therefore an
    association list in which no key occurs twice. *)

Definition dict : Type := list (Qc * Qc).

Fixpoint dict_set (k v : Qc) (d : dict) : dict :=
  match d with
  | [] => [(k, v)]
  | (k', v') :: d' =>
      if Qceqb k' k then (k', v) :: d' else (k', v') :: dict_set k v d'
  end.

Fixpoint dict_get (k : Qc) (d : dict) : result Qc :=
  match d with
  | [] => raise (KeyErrorNum k)
  | (k', v') :: d' => if Qceqb k' k then ok v' else dict_get k d'
  end.

Definition keys (d : dict) : list Qc := map fst d.
Definition values (d : dict) : list Qc := map snd d.
Definition items (d : dict) : list (Qc * Qc) := d.

(** The comprehension [{x: f(x) for x in xs}], run from the table [d]. *)
Fixpoint dict_comp (f : Qc -> result Qc) (xs : list Qc) (d : dict)
  : result dict :=
  match xs with
  | [] => ok d
  | x :: xs' => v <- f x ;; dict_comp f xs' (dict_set x v d)
  end.

(** ** class FuzzySet *)

Module FuzzySet.

Record t : Type := Make {
  mu : MembershipFunction.t;
  universe : list Qc;
  members : dict
}.

(** [__init__]: the table [{x: mu(x) for x in universe}] is built at once. *)
Definition init (mu : MembershipFunction.t) (universe : list Qc)
  : result t :=
  members <- dict_comp (MembershipFunction.call mu) universe [] ;;
  ok (Make mu universe members).

Definition complement_func (self : t) : pyfun :=
  Pyfun "<lambda>"
        (fun x => v <- MembershipFunction.call (mu self) x ;; ok (1 - v)).

Definition complement (self : t) : result t :=
  init (MembershipFunction.init
          (complement_func self)
          (Some (not_ (MembershipFunction.name (mu self)))))
       (universe self).

Definition intersection_func (A B : t) : pyfun :=
  Pyfun "<lambda>"
        (fun x => va <- MembershipFunction.call (mu A) x ;;
                  vb <- MembershipFunction.call (mu B) x ;;
                  ok (py_min va vb)).

Definition intersection (A B : t) : result t :=
  init (MembershipFunction.init
          (intersection_func A B)
          (Some (and_ (MembershipFunction.name (mu A))
                      (MembershipFunction.name (mu B)))))
       (universe A).

Definition union_func (A B : t) : pyfun :=
  Pyfun "<lambda>"
        (fun x => va <- MembershipFunction.call (mu A) x ;;
                  vb <- MembershipFunction.call (mu B) x ;;
                  ok (py_max va vb)).

Definition union (A B : t) : result t :=
  init (MembershipFunction.init
          (union_func A B)
          (Some (or_ (MembershipFunction.name (mu A))
                     (MembershipFunction.name (mu B)))))
       (universe A).

End FuzzySet.

(** ** class FuzzyRule *)

(** The record of named inputs handed to an antecedent. *)
Definition inputs : Type := list (string * Qc).

(** [inp[key]] *)
Fixpoint getitem (inp : inputs) (key : string) : result Qc :=
  match inp with
  | [] => raise (KeyError key)
  | (k, v) :: inp' => if String.eqb k key then ok v else getitem inp' key
  end.

Module FuzzyRule.

Record t : Type := Make {
  antecedent : inputs -> result Qc;
  consequent : FuzzySet.t
}.

End FuzzyRule.

(** ** class FuzzyInferenceSystem *)

Module FuzzyInferenceSystem.

Record t : Type := Make {
  universe : list Qc;
  output_range : list Qc;
  rules : list FuzzyRule.t
}.

Definition init (universe output_range : list Qc) : t :=
  Make universe output_range [].

(** [self.rules.append(rule)] *)
Definition add_rule (self : t) (rule : FuzzyRule.t) : t :=
  Make (universe self) (output_range self) (rules self ++ [rule]).

(** The inner loop of [infer]:
    [aggregated[y] = max(aggregated[y], min(degree, rule.consequent.mu(y)))]
    for every [y] of the output range. *)
Fixpoint clip_into (degree : Qc) (cmu : MembershipFunction.t)
         (ys : list Qc) (aggregated : dict) : result dict :=
  match ys with
  | [] => ok aggregated
  | y :: ys' =>
      cur <- dict_get y aggregated ;;
      m <- MembershipFunction.call cmu y ;;
      clip_into degree cmu ys'
                (dict_set y (py_max cur (py_min degree m)) aggregated)
  end.

(** The outer loop of [infer], over the rules. *)
Fixpoint aggregate (rs : list FuzzyRule.t) (inp : inputs)
         (ys : list Qc) (aggregated : dict) : result dict :=
  match rs with
  | [] => ok aggregated
  | rule :: rs' =>
      degree <- FuzzyRule.antecedent rule inp ;;
      aggregated' <- clip_into degree (FuzzySet.mu (FuzzyRule.consequent rule))
                               ys aggregated ;;
      aggregate rs' inp ys aggregated'
  end.

Definition infer (self : t) (inp : inputs) : result dict :=
  aggregated <- dict_comp (fun _ => ok 0) (output_range self) [] ;;
  aggregate (rules self) inp (output_range self) aggregated.

(** Centroid method. *)
Definition defuzzify (self : t) (aggregated : dict) : result Qc :=
  let num := py_sum (map (fun '(y, mu) => y * mu) (items aggregated)) in
  let den := py_sum (values aggregated) in
  if negb (Qceqb den 0) then py_div num den else ok 0.

End FuzzyInferenceSystem.

(** Integer literals of the demos. *)
Definition num (z : Z) : Qc := Q2Qc (inject_Z z).

(** [range(lo, hi)] as numbers, by recursion on the length. *)
Fixpoint range_from (lo : Z) (len : nat) : list Qc :=
  match len with
  | O => []
  | S n => num lo :: range_from (lo + 1) n
  end.

Definition range (lo hi : Z) : list Qc := range_from lo (Z.to_nat (hi - lo)).

(** ** Notions used to state the properties, and the demo objects *)

(** An ill-formed rule, far out of range on both sides. *)
Definition wild : MembershipFunction.t :=
  MembershipFunction.init (Pyfun "wild" (fun x => ok (x * x * x + num 5))) None.


(** The trapezoidal shape as the specification words it. *)
Definition trapezoidal_as_specified (a b c d : Qc) : Prop :=
  a <= b <= c /\ c <= d ->
  MembershipFunction.call (trapezoidal a b c d) a = ok 0 /\
  MembershipFunction.call (trapezoidal a b c d) b = ok 1 /\
  MembershipFunction.call (trapezoidal a b c d) c = ok 1 /\
  MembershipFunction.call (trapezoidal a b c d) d = ok 0 /\
  (forall x, b <= x <= c ->
             MembershipFunction.call (trapezoidal a b c d) x = ok 1) /\
  (forall x, x < a \/ d < x ->
             MembershipFunction.call (trapezoidal a b c d) x = ok 0).

(** Membership test on lists of numbers. *)
Fixpoint mem (x : Qc) (l : list Qc) : bool :=
  match l with
  | [] => false
  | y :: l' => Qceqb y x || mem x l'
  end.

(** The points of [xs] not yet in [seen], each kept where it first occurs. *)
Fixpoint distinct_from (seen xs : list Qc) : list Qc :=
  match xs with
  | [] => []
  | x :: xs' =>
      if mem x seen then distinct_from seen xs'
      else x :: distinct_from (seen ++ [x]) xs'
  end.

Definition distinct (xs : list Qc) : list Qc := distinct_from [] xs.

(** The table with keys [ks], in that order, and the value [g k] at [k]. *)
Definition table (ks : list Qc) (g : Qc -> Qc) : dict :=
  map (fun k => (k, g k)) ks.

(** The set a constructor call evaluates to; the empty set stands in for a
    call that raised. *)
Definition built (r : result FuzzySet.t) : FuzzySet.t :=
  match r with
  | ok A => A
  | raise e =>
      FuzzySet.Make
        (MembershipFunction.init (Pyfun "unbuilt" (fun _ => raise e)) None) [] []
  end.

(** The demo of fuzzy.py and example.py. *)
Definition x_universe : list Qc := range 0 101.

Definition slow : FuzzySet.t :=
  built (FuzzySet.init (triangular (num 0) (num 0) (num 50)) x_universe).
Definition medium : FuzzySet.t :=
  built (FuzzySet.init (triangular (num 25) (num 50) (num 75)) x_universe).
Definition fast : FuzzySet.t :=
  built (FuzzySet.init (triangular (num 50) (num 100) (num 100)) x_universe).
Definition output : FuzzySet.t :=
  built (FuzzySet.init (triangular (num 0) (num 0) (num 50)) x_universe).

Definition engine : FuzzyInferenceSystem.t :=
  FuzzyInferenceSystem.add_rule
    (FuzzyInferenceSystem.init x_universe x_universe)
    (FuzzyRule.Make
       (fun inp => x <- getitem inp "speed" ;;
                   MembershipFunction.call (FuzzySet.mu slow) x)
       output).

(** The same shapes over a coarse universe. *)
Definition coarse : list Qc := [num 0; num 10; num 30; num 50; num 60].

Definition low : FuzzySet.t :=
  built (FuzzySet.init (triangular (num 0) (num 0) (num 50)) coarse).
Definition mid : FuzzySet.t :=
  built (FuzzySet.init (triangular (num 25) (num 50) (num 75)) coarse).
Definition high : FuzzySet.t :=
  built (FuzzySet.init (triangular (num 50) (num 100) (num 100)) coarse).

(** A rule fires on [inp] over the points [ys] when its antecedent returns a
    degree and its consequent has a membership degree at every point. *)
Definition fires (inp : inputs) (ys : list Qc) (r : FuzzyRule.t) : Prop :=
  is_ok (FuzzyRule.antecedent r inp) /\
  forall y, In y ys ->
    is_ok (MembershipFunction.call (FuzzySet.mu (FuzzyRule.consequent r)) y).

(** The consequent of [r] at [y], clipped by the firing degree of [r]:
    [min(rule.antecedent(inputs), rule.consequent.mu(y))]. *)
Definition clipped (inp : inputs) (y : Qc) (r : FuzzyRule.t) : Qc :=
  py_min (value_of (FuzzyRule.antecedent r inp))
         (value_of (MembershipFunction.call
                      (FuzzySet.mu (FuzzyRule.consequent r)) y)).

(** What the loops of [infer] leave at the key [y] when it held [start]. *)
Definition aggregated_from (start : Qc) (inp : inputs) (y : Qc)
           (rs : list FuzzyRule.t) : Qc :=
  fold_left (fun acc r => py_max acc (clipped inp y r)) rs start.

(** [v] is the maximum of the numbers of [l]. *)
Definition is_max_of (v : Qc) (l : list Qc) : Prop :=
  In v l /\ forall w, In w l -> w <= v.

(** A rule whose antecedent returns -1. *)
Definition negative_rule : FuzzyRule.t :=
  FuzzyRule.Make (fun _ => ok (num (-1))) low.

(** Firing degrees 2 and -1, both outside the unit interval. *)
Definition wild_engine : FuzzyInferenceSystem.t :=
  FuzzyInferenceSystem.add_rule
    (FuzzyInferenceSystem.add_rule
       (FuzzyInferenceSystem.init coarse [num 10; num 40; num 60])
       (FuzzyRule.Make (fun _ => ok (num 2)) mid))
    negative_rule.

Definition low_rule : FuzzyRule.t :=
  FuzzyRule.Make (fun inp => x <- getitem inp "speed" ;;
                             MembershipFunction.call (FuzzySet.mu low) x)
                 low.

Definition mid_rule : FuzzyRule.t :=
  FuzzyRule.Make (fun inp => x <- getitem inp "speed" ;;
                             MembershipFunction.call (FuzzySet.mu mid) x)
                 high.

Definition engine_12 : FuzzyInferenceSystem.t :=
  FuzzyInferenceSystem.add_rule
    (FuzzyInferenceSystem.add_rule
       (FuzzyInferenceSystem.init coarse coarse) low_rule)
    mid_rule.

Definition engine_21 : FuzzyInferenceSystem.t :=
  FuzzyInferenceSystem.add_rule
    (FuzzyInferenceSystem.add_rule
       (FuzzyInferenceSystem.init coarse coarse) mid_rule)
    low_rule.

(** The two sums of the centroid, as written: the sum of [y * mu(y)] and
    the sum of [mu(y)] over the points [y] of the mapping. *)
Fixpoint sum_weighted (aggregated : dict) : Qc :=
  match aggregated with
  | [] => 0
  | (y, mu) :: rest => y * mu + sum_weighted rest
  end.

Fixpoint sum_degrees (aggregated : dict) : Qc :=
  match aggregated with
  | [] => 0
  | (y, mu) :: rest => mu + sum_degrees rest
  end.

(** ** Further objects: a partial rule and the thermostat *)

(** A custom rule that raises at one point: [lambda x: 1 / x]. *)
Definition reciprocal : MembershipFunction.t :=
  MembershipFunction.init (Pyfun "reciprocal" (fun x => py_div 1 x)) None.

Definition near_zero : FuzzySet.t :=
  built (FuzzySet.init reciprocal [num 1; num 2; num 4]).

(** ** thermostat.py *)

Definition temperature_universe : list Qc := range 0 41.
Definition power_universe : list Qc := range (-100) 101.

Definition cold : FuzzySet.t :=
  built (FuzzySet.init (trapezoidal (num 0) (num 0) (num 10) (num 15))
                       temperature_universe).
Definition cool : FuzzySet.t :=
  built (FuzzySet.init (triangular (num 10) (num 18) (num 22))
                       temperature_universe).
Definition comfortable : FuzzySet.t :=
  built (FuzzySet.init (triangular (num 20) (num 23) (num 26))
                       temperature_universe).
Definition warm : FuzzySet.t :=
  built (FuzzySet.init (triangular (num 24) (num 30) (num 35))
                       temperature_universe).
Definition hot : FuzzySet.t :=
  built (FuzzySet.init (trapezoidal (num 30) (num 35) (num 40) (num 40))
                       temperature_universe).

Definition high_cooling : FuzzySet.t :=
  built (FuzzySet.init (trapezoidal (num (-100)) (num (-100)) (num (-70))
                                    (num (-40)))
                       power_universe).
Definition moderate_cooling : FuzzySet.t :=
  built (FuzzySet.init (triangular (num (-60)) (num (-30)) (num 0))
                       power_universe).
Definition no_change : FuzzySet.t :=
  built (FuzzySet.init (triangular (num (-20)) (num 0) (num 20))
                       power_universe).
Definition moderate_heating : FuzzySet.t :=
  built (FuzzySet.init (triangular (num 0) (num 30) (num 60)) power_universe).
Definition high_heating : FuzzySet.t :=
  built (FuzzySet.init (trapezoidal (num 40) (num 70) (num 100) (num 100))
                       power_universe).

(** [lambda inp: s.mu(inp['temperature'])] *)
Definition temperature_is (s : FuzzySet.t) (inp : inputs) : result Qc :=
  t <- getitem inp "temperature" ;; MembershipFunction.call (FuzzySet.mu s) t.

Definition thermostat_rules : list FuzzyRule.t :=
  [ FuzzyRule.Make (temperature_is cold) high_heating;
    FuzzyRule.Make (temperature_is cool) moderate_heating;
    FuzzyRule.Make (temperature_is comfortable) no_change;
    FuzzyRule.Make (temperature_is warm) moderate_cooling;
    FuzzyRule.Make (temperature_is hot) high_cooling ].

(** The system after the five calls of [add_rule]. *)
Definition fis : FuzzyInferenceSystem.t :=
  fold_left FuzzyInferenceSystem.add_rule thermostat_rules
            (FuzzyInferenceSystem.init temperature_universe power_universe).

(** The action chosen from the power value; it starts as ["No action"] and
    is then assigned in every branch. *)
Definition action (power : Qc) : string :=
  let action := "No action"%string in
  if Qcltb power (num (-60)) then "High cooling"%string
  else if Qcltb power (num (-20)) then "Moderate cooling"%string
  else if Qcltb power (num 20) then "No change"%string
  else if Qcltb power (num 60) then "Moderate heating"%string
  else "High heating"%string.

(** One turn of the loop over the test temperatures: the values of the row
    that is printed. *)
Definition thermostat_row (temp : Qc) : result (Qc * Qc * string) :=
  let inp := [("temperature"%string, temp)] in
  aggregated <- FuzzyInferenceSystem.infer fis inp ;;
  power <- FuzzyInferenceSystem.defuzzify fis aggregated ;;
  ok (temp, power, action power).

Definition test_temperatures : list Qc :=
  [num 5; num 15; num 23; num 28; num 38].

Fixpoint for_each {A : Type} (f : Qc -> result A) (l : list Qc)
  : result (list A) :=
  match l with
  | [] => ok []
  | x :: l' => row <- f x ;; rows <- for_each f l' ;; ok (row :: rows)
  end.

Definition thermostat_demo : result (list (Qc * Qc * string)) :=
  for_each thermostat_row test_temperatures.

(** ** Numbers as the interpreter has them

    Whether a denominator can vanish hangs on rounding.  For that question
    the rule under [triangular] is embedded a second time over Python's own
    numbers: unbounded ints and binary64 floats ([spec_float] at 53 bits of
    precision), mixed by the interpreter's rules. *)

Module Binary64.

Definition prec : Z := 53%Z.
Definition emax : Z := 1024%Z.

Inductive number : Type :=
| PyInt (z : Z)
| PyFloat (f : spec_float).

Definition overflow : exn := Raised "OverflowError".

(** An operand as a float: an int is rounded to the nearest float, ties to
    even, and raises [OverflowError] when it is too large. *)
Definition to_float (n : number) : result spec_float :=
  match n with
  | PyFloat f => ok f
  | PyInt z =>
      match binary_normalize prec emax z 0 false with
      | S754_infinity _ => raise overflow
      | f => ok f
      end
  end.

(** Comparisons are exact, also between an int and a float; a NaN compares
    with nothing. *)
Definition compare_int_float (z : Z) (f : spec_float) : option comparison :=
  match f with
  | S754_nan => None
  | S754_infinity s => Some (if s then Gt else Lt)
  | S754_zero _ => Some (Z.compare z 0)
  | S754_finite s m e =>
      let v := if s then Zneg m else Zpos m in
      Some (match e with
            | Zneg p => Z.compare (z * 2 ^ Zpos p)%Z v
            | _ => Z.compare z (v * 2 ^ e)%Z
            end)
  end.

Definition compare (x y : number) : option comparison :=
  match x, y with
  | PyInt a, PyInt b => Some (Z.compare a b)
  | PyFloat f, PyFloat g => SFcompare f g
  | PyInt a, PyFloat g => compare_int_float a g
  | PyFloat f, PyInt b => option_map CompOpp (compare_int_float b f)
  end.

Definition lt (x y : number) : bool :=
  match compare x y with Some Lt => true | _ => false end.

Definition le (x y : number) : bool :=
  match compare x y with Some Lt | Some Eq => true | _ => false end.

Definition ge (x y : number) : bool := le y x.

(** [x - y]: exact on two ints, otherwise on the operands as floats. *)
Definition sub (x y : number) : result number :=
  match x, y with
  | PyInt a, PyInt b => ok (PyInt (a - b)%Z)
  | _, _ =>
      f <- to_float x ;;
      g <- to_float y ;;
      ok (PyFloat (SFsub prec emax f g))
  end.

(** An int as the float that holds it exactly, with as long a mantissa as
    it takes; only the quotient of two ints is rounded. *)
Definition exact (z : Z) : spec_float :=
  match z with
  | Z0 => S754_zero false
  | Zpos p => S754_finite false p 0
  | Zneg p => S754_finite true p 0
  end.

(** [x / y]: the correctly rounded quotient; a zero divisor raises. *)
Definition truediv (x y : number) : result number :=
  match x, y with
  | PyInt a, PyInt b =>
      if (b =? 0)%Z then raise ZeroDivisionError
      else match SFdiv prec emax (exact a) (exact b) with
           | S754_infinity _ => raise overflow
           | q => ok (PyFloat q)
           end
  | _, _ =>
      f <- to_float x ;;
      g <- to_float y ;;
      match g with
      | S754_zero _ => raise ZeroDivisionError
      | _ => ok (PyFloat (SFdiv prec emax f g))
      end
  end.

(** The function [mu] inside [triangular]. *)
Definition triangular_mu (a b c : number) (x : number) : result number :=
  if le x a || ge x c then ok (PyFloat (S754_zero false))
  else if lt x b then
    p <- sub x a ;; q <- sub b a ;; truediv p q
  else
    p <- sub c x ;; q <- sub c b ;; truediv p q.

End Binary64.

(** * Properties *)

(** ** Comparisons *)

Lemma Qcltb_lt (x y : Qc) : Qcltb x y = true <-> x < y.
Proof.
  unfold Qcltb. rewrite Qclt_alt.
  destruct (x ?= y); split; intro H; try reflexivity; discriminate.
Qed.

Lemma Qcleb_le (x y : Qc) : Qcleb x y = true <-> x <= y.
Proof.
  unfold Qcleb. rewrite Qcle_alt.
  destruct (x ?= y); split; intro H; try reflexivity; try discriminate.
  now elim H.
Qed.

Lemma Qceqb_eq (x y : Qc) : Qceqb x y = true <-> x = y.
Proof.
  unfold Qceqb. rewrite Qceq_alt.
  destruct (x ?= y); split; intro H; try reflexivity; discriminate.
Qed.

Lemma Qcltb_ge (x y : Qc) : Qcltb x y = false <-> y <= x.
Proof.
  split; intro H.
  - apply Qcnot_lt_le. intro L. apply Qcltb_lt in L. congruence.
  - destruct (Qcltb x y) eqn:E; [|reflexivity].
    apply Qcltb_lt in E. now apply Qclt_not_le in E.
Qed.

Lemma Qcleb_gt (x y : Qc) : Qcleb x y = false <-> y < x.
Proof.
  split; intro H.
  - apply Qcnot_le_lt. intro L. apply Qcleb_le in L. congruence.
  - destruct (Qcleb x y) eqn:E; [|reflexivity].
    apply Qcleb_le in E. now apply Qcle_not_lt in E.
Qed.

Lemma Qceqb_neq (x y : Qc) : Qceqb x y = false <-> x <> y.
Proof.
  split; intro H.
  - intro E. apply Qceqb_eq in E. congruence.
  - destruct (Qceqb x y) eqn:E; [|reflexivity].
    apply Qceqb_eq in E. contradiction.
Qed.

Lemma Qceqb_refl (x : Qc) : Qceqb x x = true.
Proof. now apply Qceqb_eq. Qed.

(** Every comparison of the program, decided at once: the goal splits on
    the boolean and the matching order fact lands in the context. *)
Ltac cmp_split b E on_true on_false :=
  destruct b eqn:E; [apply on_true in E | apply on_false in E].

Ltac cmp_cases :=
  repeat match goal with
  | H : context [Qcltb ?x ?y] |- _ =>
      revert H; let E := fresh "E" in
      cmp_split (Qcltb x y) E Qcltb_lt Qcltb_ge; intro
  | H : context [Qcleb ?x ?y] |- _ =>
      revert H; let E := fresh "E" in
      cmp_split (Qcleb x y) E Qcleb_le Qcleb_gt; intro
  | H : context [Qceqb ?x ?y] |- _ =>
      revert H; let E := fresh "E" in
      cmp_split (Qceqb x y) E Qceqb_eq Qceqb_neq; intro
  | |- context [Qcltb ?x ?y] =>
      let E := fresh "E" in cmp_split (Qcltb x y) E Qcltb_lt Qcltb_ge
  | |- context [Qcleb ?x ?y] =>
      let E := fresh "E" in cmp_split (Qcleb x y) E Qcleb_le Qcleb_gt
  | |- context [Qceqb ?x ?y] =>
      let E := fresh "E" in cmp_split (Qceqb x y) E Qceqb_eq Qceqb_neq
  end.

(** Linear arithmetic over [Qc], through the underlying rationals. *)
Lemma Qc_eq_Qeq (x y : Qc) : x = y <-> (this x == this y)%Q.
Proof. split; [intros ->; reflexivity | apply Qc_is_canon]. Qed.

Ltac qc_lra :=
  cbv beta iota in *;
  repeat match goal with
  | H : @eq Qc _ _ |- _ => apply Qc_eq_Qeq in H
  | H : ~ @eq Qc _ _ |- _ => rewrite Qc_eq_Qeq in H
  end;
  try match goal with |- @eq Qc _ _ => apply Qc_is_canon end;
  try match goal with |- ~ @eq Qc _ _ => rewrite Qc_eq_Qeq end;
  unfold Qcle, Qclt, Qcminus, Qcplus, Qcopp, Q2Qc in *;
  cbn [this] in *;
  repeat match goal with
  | H : context [Qred _] |- _ => rewrite Qred_correct in H
  | |- context [Qred _] => rewrite Qred_correct
  end;
  lra.

(** ** [max] and [min] *)

Lemma py_max_l (a b : Qc) : a <= py_max a b.
Proof. unfold py_max, Qcgtb. cmp_cases; qc_lra. Qed.

Lemma py_max_r (a b : Qc) : b <= py_max a b.
Proof. unfold py_max, Qcgtb. cmp_cases; qc_lra. Qed.

Lemma py_max_cases (a b : Qc) : py_max a b = a \/ py_max a b = b.
Proof. unfold py_max. destruct (Qcgtb b a); auto. Qed.

Lemma py_max_lub (a b u : Qc) : a <= u -> b <= u -> py_max a b <= u.
Proof. intros. destruct (py_max_cases a b) as [-> | ->]; assumption. Qed.

Lemma py_min_l (a b : Qc) : py_min a b <= a.
Proof. unfold py_min. cmp_cases; qc_lra. Qed.

Lemma py_min_r (a b : Qc) : py_min a b <= b.
Proof. unfold py_min. cmp_cases; qc_lra. Qed.

Lemma py_min_cases (a b : Qc) : py_min a b = a \/ py_min a b = b.
Proof. unfold py_min. destruct (Qcltb b a); auto. Qed.

Lemma py_min_glb (a b l : Qc) : l <= a -> l <= b -> l <= py_min a b.
Proof. intros. destruct (py_min_cases a b) as [-> | ->]; assumption. Qed.

Lemma py_max_comm (a b : Qc) : py_max a b = py_max b a.
Proof. unfold py_max, Qcgtb. cmp_cases; qc_lra. Qed.

Lemma py_max_assoc (a b c : Qc) : py_max (py_max a b) c = py_max a (py_max b c).
Proof. unfold py_max, Qcgtb. cmp_cases; qc_lra. Qed.

Lemma py_max_idem_r (a b : Qc) : py_max (py_max a b) b = py_max a b.
Proof. unfold py_max, Qcgtb. cmp_cases; qc_lra. Qed.

(** The clamp of [__call__]. *)
Lemma clamp_bounds (raw : Qc) : 0 <= py_max 0 (py_min 1 raw) <= 1.
Proof.
  split; [apply py_max_l|].
  apply py_max_lub; [qc_lra | apply py_min_l].
Qed.

Lemma clamp_id (v : Qc) : 0 <= v <= 1 -> py_max 0 (py_min 1 v) = v.
Proof. intros [? ?]. unfold py_max, py_min, Qcgtb. cmp_cases; qc_lra. Qed.

Lemma call_bounds (f : MembershipFunction.t) (x v : Qc) :
  MembershipFunction.call f x = ok v -> 0 <= v <= 1.
Proof.
  unfold MembershipFunction.call.
  destruct (fn_call _ x); simpl; intro H; inversion H.
  apply clamp_bounds.
Qed.

Lemma call_of_raw (f : MembershipFunction.t) (x raw : Qc) :
  fn_call (MembershipFunction.func f) x = ok raw ->
  MembershipFunction.call f x = ok (py_max 0 (py_min 1 raw)).
Proof. unfold MembershipFunction.call. now intros ->. Qed.

Lemma call_of_raw_unit (f : MembershipFunction.t) (x raw : Qc) :
  fn_call (MembershipFunction.func f) x = ok raw -> 0 <= raw <= 1 ->
  MembershipFunction.call f x = ok raw.
Proof. intros H B. rewrite (call_of_raw _ _ H). now rewrite clamp_id. Qed.

(** ** Membership degrees are clamped *)

(** C3.  Whatever the rule under a membership function returns at [x], in
    range or not, evaluating the membership function at [x] returns a degree
    between 0 and 1. *)
Theorem membership_in_unit_interval (f : MembershipFunction.t) (x raw : Qc) :
  fn_call (MembershipFunction.func f) x = ok raw ->
  exists v, MembershipFunction.call f x = ok v /\ 0 <= v <= 1.
Proof.
  intro H. eexists. split; [apply (call_of_raw _ _ H) | apply clamp_bounds].
Qed.

Lemma membership_in_unit_interval_witness :
  (exists v, MembershipFunction.call wild (num 3) = ok v /\ 0 <= v <= 1) /\
  (exists v, MembershipFunction.call wild (num (-3)) = ok v /\ 0 <= v <= 1).
Proof.
  split.
  - apply (@membership_in_unit_interval wild (num 3)
             (num 3 * num 3 * num 3 + num 5)).
    reflexivity.
  - apply (@membership_in_unit_interval wild (num (-3))
             (num (-3) * num (-3) * num (-3) + num 5)).
    reflexivity.
Defined.

(** ** The shapes *)

Lemma Qcdiv_same (x : Qc) : x <> 0 -> x / x = 1.
Proof. intro. unfold Qcdiv. now apply Qcmult_inv_r. Qed.

Ltac shape_cases :=
  unfold triangular_mu, trapezoidal_mu, py_div, Qcgeb;
  cmp_cases; cbn [orb andb negb];
  try (exfalso; qc_lra).

Lemma triangular_mu_total (a b c x : Qc) :
  exists v, triangular_mu a b c x = ok v.
Proof. shape_cases; eexists; reflexivity. Qed.

Lemma trapezoidal_mu_total (a b c d x : Qc) :
  exists v, trapezoidal_mu a b c d x = ok v.
Proof. shape_cases; eexists; reflexivity. Qed.

Lemma triangular_mu_outside (a b c x : Qc) :
  x <= a \/ c <= x -> triangular_mu a b c x = ok 0.
Proof. intros [H | H]; shape_cases; reflexivity. Qed.

Lemma trapezoidal_mu_outside (a b c d x : Qc) :
  x <= a \/ d <= x -> trapezoidal_mu a b c d x = ok 0.
Proof. intros [H | H]; shape_cases; reflexivity. Qed.


Lemma trapezoidal_mu_plateau (a b c d x : Qc) :
  a < x < d -> b <= x <= c -> trapezoidal_mu a b c d x = ok 1.
Proof.
  intros [H1 H2] [H3 H4]. shape_cases; reflexivity.
Qed.

Lemma call_shape_zero (f : MembershipFunction.t) (x : Qc) :
  fn_call (MembershipFunction.func f) x = ok 0 ->
  MembershipFunction.call f x = ok 0.
Proof. intro H. apply call_of_raw_unit; [assumption | qc_lra]. Qed.

Lemma call_shape_one (f : MembershipFunction.t) (x : Qc) :
  fn_call (MembershipFunction.func f) x = ok 1 ->
  MembershipFunction.call f x = ok 1.
Proof. intro H. apply call_of_raw_unit; [assumption | qc_lra]. Qed.

Lemma ok_zero_not_one : @ok Qc 0 <> ok 1.
Proof. intro H. inversion H. Qed.

(** The sanity scenario of the demo: 30 is slow to the degree 0.4. *)
Example triangular_sanity :
  MembershipFunction.call (triangular (num 0) (num 0) (num 50)) (num 30)
  = ok (Q2Qc (2 # 5)).
Proof. vm_compute. f_equal. apply Qc_is_canon. reflexivity. Qed.

(** With exact subtraction the guards keep every denominator away from
    zero: over the rationals the rule under a triangular or a trapezoidal
    shape returns a number at every point, also for degenerate shapes with
    equal adjacent parameters, and so does the membership function. *)
Lemma shapes_never_divide_by_zero (a b c d x : Qc) :
  (exists raw, triangular_mu a b c x = ok raw /\
     exists v, MembershipFunction.call (triangular a b c) x = ok v) /\
  (exists raw, trapezoidal_mu a b c d x = ok raw /\
     exists v, MembershipFunction.call (trapezoidal a b c d) x = ok v).
Proof.
  split.
  - destruct (triangular_mu_total a b c x) as [raw H].
    exists raw. split; [assumption|].
    eexists. apply call_of_raw. exact H.
  - destruct (trapezoidal_mu_total a b c d x) as [raw H].
    exists raw. split; [assumption|].
    eexists. apply call_of_raw. exact H.
Qed.

(** C10.  On Python's own numbers the guards do not keep the denominators
    away from zero.  For the ordered triple [a = 2**60 + 129],
    [b = c = float(2**60 + 256)] and the point [x = 2**60 + 200] the guards
    pass ([a < x < b], compared exactly), the rising slope is taken, and
    [b - a] turns the int [a] into the float [2**60 + 256]: the denominator
    is [0.0] and the division raises [ZeroDivisionError]. *)
Theorem triangular_divides_by_zero :
  Binary64.to_float (Binary64.PyInt (2 ^ 60 + 256))
  = ok (S754_finite false 4503599627370497 8) /\
  Binary64.le (Binary64.PyInt (2 ^ 60 + 129))
              (Binary64.PyFloat (S754_finite false 4503599627370497 8)) = true /\
  Binary64.sub (Binary64.PyFloat (S754_finite false 4503599627370497 8))
               (Binary64.PyInt (2 ^ 60 + 129))
  = ok (Binary64.PyFloat (S754_zero false)) /\
  Binary64.triangular_mu
    (Binary64.PyInt (2 ^ 60 + 129))
    (Binary64.PyFloat (S754_finite false 4503599627370497 8))
    (Binary64.PyFloat (S754_finite false 4503599627370497 8))
    (Binary64.PyInt (2 ^ 60 + 200))
  = raise ZeroDivisionError.
Proof.
  split; [vm_compute; reflexivity|].
  split; [vm_compute; reflexivity|].
  split; vm_compute; reflexivity.
Qed.




(** The set [cold] of the thermostat, [trapezoidal(0, 0, 10, 15)], is 0 at
    the left end of its own plateau. *)
Lemma trapezoidal_shoulder_plateau :
  MembershipFunction.call (trapezoidal (num 0) (num 0) (num 10) (num 15)) (num 0)
  = ok 0
  /\ ~ trapezoidal_as_specified (num 0) (num 0) (num 10) (num 15).
Proof.
  assert (H0 : MembershipFunction.call
                 (trapezoidal (num 0) (num 0) (num 10) (num 15)) (num 0) = ok 0).
  { apply call_shape_zero. apply trapezoidal_mu_outside. left. apply Qcle_refl. }
  split; [exact H0|].
  intro H. destruct H as (_ & Hb & _).
  - repeat split; discriminate.
  - rewrite H0 in Hb. now apply ok_zero_not_one.
Qed.

(** C5.  For ordered parameters the trapezoidal shape is 0 at [a], at [d]
    and at every point at or beyond them, and 1 at every point of the
    plateau [[b, c]] that lies strictly between [a] and [d]; so it is 1 at
    [b] when [a < b < d] and at [c] when [a < c < d], and 0 at a plateau end
    that coincides with [a] or [d]. *)
Theorem trapezoidal_shape (a b c d : Qc) :
  a <= b <= c /\ c <= d ->
  MembershipFunction.call (trapezoidal a b c d) a = ok 0 /\
  MembershipFunction.call (trapezoidal a b c d) d = ok 0 /\
  (forall x, x <= a \/ d <= x ->
             MembershipFunction.call (trapezoidal a b c d) x = ok 0) /\
  (forall x, b <= x <= c -> a < x < d ->
             MembershipFunction.call (trapezoidal a b c d) x = ok 1) /\
  (a < b < d -> MembershipFunction.call (trapezoidal a b c d) b = ok 1) /\
  (a < c < d -> MembershipFunction.call (trapezoidal a b c d) c = ok 1) /\
  (a = b \/ b = d -> MembershipFunction.call (trapezoidal a b c d) b = ok 0) /\
  (a = c \/ c = d -> MembershipFunction.call (trapezoidal a b c d) c = ok 0).
Proof.
  intros [[Hab Hbc] Hcd].
  assert (Z : forall x, x <= a \/ d <= x ->
                        MembershipFunction.call (trapezoidal a b c d) x = ok 0).
  { intros x Hx. apply call_shape_zero. now apply trapezoidal_mu_outside. }
  assert (P : forall x, b <= x <= c -> a < x < d ->
                        MembershipFunction.call (trapezoidal a b c d) x = ok 1).
  { intros x Hx Hin. apply call_shape_one. now apply trapezoidal_mu_plateau. }
  repeat split.
  - apply Z. left. apply Qcle_refl.
  - apply Z. right. apply Qcle_refl.
  - exact Z.
  - exact P.
  - intro H. apply P; [split; [apply Qcle_refl | assumption] | assumption].
  - intro H. apply P; [split; [assumption | apply Qcle_refl] | assumption].
  - intros [-> | ->]; apply Z; [left | right]; apply Qcle_refl.
  - intros [-> | ->]; apply Z; [left | right]; apply Qcle_refl.
Qed.

Lemma trapezoidal_shape_witness :
  (num 30 <= num 35 <= num 40 /\ num 40 <= num 40) /\
  MembershipFunction.call (trapezoidal (num 30) (num 35) (num 40) (num 40)) (num 35)
  = ok 1 /\
  MembershipFunction.call (trapezoidal (num 30) (num 35) (num 40) (num 40)) (num 40)
  = ok 0.
Proof.
  assert (H : num 30 <= num 35 <= num 40 /\ num 40 <= num 40)
    by (repeat split; discriminate).
  split; [exact H|].
  destruct (@trapezoidal_shape (num 30) (num 35) (num 40) (num 40) H)
    as (_ & _ & _ & _ & Hb & _ & _ & Hc).
  split.
  - apply Hb. split; reflexivity.
  - apply Hc. right. reflexivity.
Defined.

(** ** Tables *)

Lemma mem_In (x : Qc) (l : list Qc) : mem x l = true <-> In x l.
Proof.
  induction l as [|y l IH]; simpl.
  - split; [discriminate | contradiction].
  - rewrite orb_true_iff, Qceqb_eq, IH. reflexivity.
Qed.

Lemma mem_not_In (x : Qc) (l : list Qc) : mem x l = false <-> ~ In x l.
Proof.
  rewrite <- mem_In. destruct (mem x l); split; congruence.
Qed.

Lemma keys_table (ks : list Qc) (g : Qc -> Qc) : keys (table ks g) = ks.
Proof.
  unfold keys, table. rewrite map_map. simpl. apply map_id.
Qed.

Lemma table_ext (ks : list Qc) (g g' : Qc -> Qc) :
  (forall k, In k ks -> g k = g' k) -> table ks g = table ks g'.
Proof.
  intro H. apply map_ext_in. intros k Hk. now rewrite H.
Qed.

Lemma In_table (ks : list Qc) (g : Qc -> Qc) (k v : Qc) :
  In (k, v) (table ks g) <-> In k ks /\ v = g k.
Proof.
  unfold table. rewrite in_map_iff. split.
  - intros (k' & E & Hk). inversion E; subst. auto.
  - intros [Hk ->]. exists k. auto.
Qed.

Lemma dict_get_table (ks : list Qc) (g : Qc -> Qc) (y : Qc) :
  In y ks -> dict_get y (table ks g) = ok (g y).
Proof.
  induction ks as [|k ks IH]; simpl; [contradiction|].
  intros H. destruct (Qceqb k y) eqn:E.
  - apply Qceqb_eq in E. now subst.
  - apply Qceqb_neq in E. destruct H as [H | H]; [contradiction | auto].
Qed.

Lemma dict_set_table_other (ks : list Qc) (g : Qc -> Qc) (y v : Qc) :
  ~ In y ks ->
  table ks (fun k => if Qceqb k y then v else g k) = table ks g.
Proof.
  intro H. apply table_ext. intros k Hk.
  destruct (Qceqb k y) eqn:E; [|reflexivity].
  apply Qceqb_eq in E. now subst.
Qed.

Lemma dict_set_table_in (ks : list Qc) (g : Qc -> Qc) (y v : Qc) :
  NoDup ks -> In y ks ->
  dict_set y v (table ks g) = table ks (fun k => if Qceqb k y then v else g k).
Proof.
  induction ks as [|k ks IH]; simpl; [contradiction|].
  intros ND H. inversion ND as [|? ? Hk ND']; subst.
  destruct (Qceqb k y) eqn:E.
  - apply Qceqb_eq in E. subst k.
    f_equal. symmetry. now apply dict_set_table_other.
  - f_equal. apply IH; [assumption|].
    apply Qceqb_neq in E. destruct H; [contradiction | assumption].
Qed.

Lemma dict_set_table_new (ks : list Qc) (g : Qc -> Qc) (y v : Qc) :
  ~ In y ks ->
  dict_set y v (table ks g)
  = table (ks ++ [y]) (fun k => if Qceqb k y then v else g k).
Proof.
  induction ks as [|k ks IH]; simpl; intro H.
  - now rewrite Qceqb_refl.
  - destruct (Qceqb k y) eqn:E.
    + apply Qceqb_eq in E. tauto.
    + f_equal. apply IH. tauto.
Qed.

(** *** First occurrences *)

Lemma distinct_from_In (seen xs : list Qc) (x : Qc) :
  In x (distinct_from seen xs) <-> In x xs /\ ~ In x seen.
Proof.
  revert seen. induction xs as [|y xs IH]; intro seen; simpl; [tauto|].
  destruct (mem y seen) eqn:E.
  - apply mem_In in E. rewrite IH. split; [tauto|].
    intros [[-> | H] N]; tauto.
  - apply mem_not_In in E. simpl. rewrite IH, in_app_iff. simpl.
    split.
    + intros [-> | [H N]]; tauto.
    + intros [[-> | H] N]; [tauto|].
      destruct (Qc_eq_dec y x); [tauto|]. right. tauto.
Qed.

Lemma distinct_from_NoDup (seen xs : list Qc) : NoDup (distinct_from seen xs).
Proof.
  revert seen. induction xs as [|y xs IH]; intro seen; simpl; [constructor|].
  destruct (mem y seen); [apply IH|].
  constructor; [|apply IH].
  rewrite distinct_from_In, in_app_iff. simpl. tauto.
Qed.

Lemma distinct_from_id (seen xs : list Qc) :
  NoDup xs -> (forall x, In x xs -> ~ In x seen) -> distinct_from seen xs = xs.
Proof.
  revert seen. induction xs as [|y xs IH]; intros seen ND H; simpl; [reflexivity|].
  inversion ND as [|? ? Hy ND']; subst.
  assert (E : mem y seen = false) by (apply mem_not_In, H; now left).
  rewrite E. f_equal. apply IH; [assumption|].
  intros x Hx. rewrite in_app_iff. simpl.
  intros [N | [-> | []]]; [|contradiction].
  apply (H x); [now right | assumption].
Qed.

Lemma distinct_In (xs : list Qc) (x : Qc) : In x (distinct xs) <-> In x xs.
Proof. unfold distinct. rewrite distinct_from_In. simpl. tauto. Qed.

Lemma distinct_NoDup (xs : list Qc) : NoDup (distinct xs).
Proof. apply distinct_from_NoDup. Qed.

Lemma distinct_id (xs : list Qc) : NoDup xs -> distinct xs = xs.
Proof. intro. apply distinct_from_id; auto. Qed.

(** *** Comprehensions *)

Lemma is_ok_value (r : result Qc) : is_ok r -> r = ok (value_of r).
Proof. destruct r; simpl; [reflexivity | contradiction]. Qed.

Lemma returns_ok {A : Type} (r : result A) :
  returns r = true -> exists a, r = ok a.
Proof. destruct r; simpl; [eauto | discriminate]. Qed.

Lemma bind_ok {A B : Type} (r : result A) (k : A -> result B) (b : B) :
  bind r k = ok b -> exists a, r = ok a /\ k a = ok b.
Proof. destruct r; simpl; [eauto | discriminate]. Qed.

Lemma dict_comp_table (f : Qc -> result Qc) (xs ks : list Qc) (g : Qc -> Qc) :
  NoDup ks -> (forall x, In x xs -> is_ok (f x)) ->
  dict_comp f xs (table ks g)
  = ok (table (ks ++ distinct_from ks xs)
              (fun k => if mem k xs then value_of (f k) else g k)).
Proof.
  revert ks g. induction xs as [|x xs IH]; intros ks g ND H; simpl.
  - now rewrite app_nil_r.
  - rewrite (is_ok_value (f x)) by (apply H; now left). simpl.
    destruct (mem x ks) eqn:E.
    + apply mem_In in E. rewrite dict_set_table_in by assumption.
      rewrite IH by (auto; intros; apply H; now right).
      f_equal. apply table_ext. intros k _.
      destruct (mem k xs); [now rewrite orb_true_r|].
      rewrite orb_false_r.
      destruct (Qceqb k x) eqn:E1.
      * apply Qceqb_eq in E1. subst. now rewrite Qceqb_refl.
      * apply Qceqb_neq in E1.
        assert (E2 : Qceqb x k = false) by (apply Qceqb_neq; congruence).
        now rewrite E2.
    + apply mem_not_In in E. rewrite dict_set_table_new by assumption.
      rewrite IH.
      * rewrite <- app_assoc. simpl. f_equal. apply table_ext. intros k _.
        destruct (mem k xs); [now rewrite orb_true_r|].
        rewrite orb_false_r.
        destruct (Qceqb k x) eqn:E1.
        -- apply Qceqb_eq in E1. subst. now rewrite Qceqb_refl.
        -- apply Qceqb_neq in E1.
           assert (E2 : Qceqb x k = false) by (apply Qceqb_neq; congruence).
           now rewrite E2.
      * apply NoDup_app; [assumption | repeat constructor; tauto |].
        intros a Ha [<- | []]. contradiction.
      * intros; apply H; now right.
Qed.

Lemma dict_comp_ok (f : Qc -> result Qc) (xs : list Qc) (d d' : dict) :
  dict_comp f xs d = ok d' -> forall x, In x xs -> is_ok (f x).
Proof.
  revert d. induction xs as [|y xs IH]; intros d H x Hx; [contradiction|].
  simpl in H. apply bind_ok in H. destruct H as (v & Hv & H).
  destruct Hx as [<- | Hx]; [now rewrite Hv | eauto].
Qed.

(** The comprehension run from the empty table. *)
Lemma dict_comp_fresh (f : Qc -> result Qc) (xs : list Qc) :
  (forall x, In x xs -> is_ok (f x)) ->
  dict_comp f xs [] = ok (table (distinct xs) (fun k => value_of (f k))).
Proof.
  intro H. change (@nil (Qc * Qc)) with (table [] (fun _ => 0)).
  rewrite dict_comp_table by (assumption || constructor).
  simpl. f_equal. apply table_ext. intros k Hk.
  apply (proj1 (distinct_In _ _)) in Hk.
  apply (proj2 (mem_In _ _)) in Hk. now rewrite Hk.
Qed.

Lemma init_inv (m : MembershipFunction.t) (u : list Qc) (A : FuzzySet.t) :
  FuzzySet.init m u = ok A ->
  FuzzySet.mu A = m /\ FuzzySet.universe A = u /\
  FuzzySet.members A
  = table (distinct u) (fun k => value_of (MembershipFunction.call m k)).
Proof.
  unfold FuzzySet.init. intro H.
  apply bind_ok in H. destruct H as (d & Hd & H).
  inversion H; subst; simpl. repeat split.
  rewrite dict_comp_fresh in Hd by (eapply dict_comp_ok; eassumption).
  now inversion Hd.
Qed.

(** ** The cached membership table *)

(** C8.  The table cached by the constructor of a fuzzy set has as keys the
    points of the universe, each once, in the order in which the universe
    first lists them (the universe itself when it lists no point twice), and
    every cached value is the membership degree of its key, between 0 and
    1. *)
Theorem members_table (m : MembershipFunction.t) (u : list Qc) (A : FuzzySet.t) :
  FuzzySet.init m u = ok A ->
  keys (FuzzySet.members A) = distinct u /\
  (NoDup u -> keys (FuzzySet.members A) = u) /\
  (forall x, In x (keys (FuzzySet.members A)) <-> In x u) /\
  NoDup (keys (FuzzySet.members A)) /\
  (forall k v, In (k, v) (items (FuzzySet.members A)) ->
               MembershipFunction.call m k = ok v /\ 0 <= v <= 1).
Proof.
  intro H.
  assert (Hok : forall x, In x u -> is_ok (MembershipFunction.call m x)).
  { unfold FuzzySet.init in H. apply bind_ok in H.
    destruct H as (d & Hd & _). eapply dict_comp_ok; eassumption. }
  apply init_inv in H. destruct H as (_ & _ & ->).
  rewrite keys_table. repeat split.
  - apply distinct_id.
  - apply distinct_In.
  - apply distinct_In.
  - apply distinct_NoDup.
  - apply In_table in H. destruct H as [Hk ->].
    apply is_ok_value, Hok. now apply distinct_In.
  - apply In_table in H. destruct H as [Hk ->].
    apply (@call_bounds m k). apply is_ok_value, Hok. now apply distinct_In.
  - apply In_table in H. destruct H as [Hk ->].
    apply (@call_bounds m k). apply is_ok_value, Hok. now apply distinct_In.
Qed.

Ltac qc_compute :=
  vm_compute;
  repeat match goal with
         | |- ok _ = ok _ => f_equal
         | |- @eq Qc _ _ => apply Qc_is_canon; reflexivity
         end.

Lemma members_table_witness :
  exists A,
    FuzzySet.init (triangular (num 0) (num 0) (num 50))
                  [num 0; num 30; num 50; num 30] = ok A /\
    keys (FuzzySet.members A) = distinct [num 0; num 30; num 50; num 30] /\
    forall k v, In (k, v) (items (FuzzySet.members A)) ->
      MembershipFunction.call (triangular (num 0) (num 0) (num 50)) k = ok v /\
      0 <= v <= 1.
Proof.
  destruct (returns_ok (FuzzySet.init (triangular (num 0) (num 0) (num 50))
                                      [num 0; num 30; num 50; num 30]))
    as [A E]; [vm_compute; reflexivity|].
  exists A. split; [exact E|].
  destruct (members_table _ _ E) as (H1 & _ & _ & _ & H5).
  split; assumption.
Defined.

(** ** Complement, union, intersection *)

Lemma func_init (f : pyfun) (n : option display_name) :
  MembershipFunction.func (MembershipFunction.init f n) = f.
Proof. reflexivity. Qed.

Lemma complement_call (A C : FuzzySet.t) (x va : Qc) :
  FuzzySet.complement A = ok C ->
  MembershipFunction.call (FuzzySet.mu A) x = ok va ->
  MembershipFunction.call (FuzzySet.mu C) x = ok (1 - va).
Proof.
  intros HC Ha. apply init_inv in HC. destruct HC as (-> & _).
  assert (B := call_bounds _ _ Ha).
  apply call_of_raw_unit.
  - rewrite func_init. simpl. now rewrite Ha.
  - destruct B. split; qc_lra.
Qed.

Lemma union_call (A B U : FuzzySet.t) (x va vb : Qc) :
  FuzzySet.union A B = ok U ->
  MembershipFunction.call (FuzzySet.mu A) x = ok va ->
  MembershipFunction.call (FuzzySet.mu B) x = ok vb ->
  MembershipFunction.call (FuzzySet.mu U) x = ok (py_max va vb).
Proof.
  intros HU Ha Hb. apply init_inv in HU. destruct HU as (-> & _).
  assert (Ba := call_bounds _ _ Ha). assert (Bb := call_bounds _ _ Hb).
  apply call_of_raw_unit.
  - rewrite func_init. simpl. now rewrite Ha, Hb.
  - destruct (py_max_cases va vb) as [-> | ->]; assumption.
Qed.

Lemma intersection_call (A B J : FuzzySet.t) (x va vb : Qc) :
  FuzzySet.intersection A B = ok J ->
  MembershipFunction.call (FuzzySet.mu A) x = ok va ->
  MembershipFunction.call (FuzzySet.mu B) x = ok vb ->
  MembershipFunction.call (FuzzySet.mu J) x = ok (py_min va vb).
Proof.
  intros HJ Ha Hb. apply init_inv in HJ. destruct HJ as (-> & _).
  assert (Ba := call_bounds _ _ Ha). assert (Bb := call_bounds _ _ Hb).
  apply call_of_raw_unit.
  - rewrite func_init. simpl. now rewrite Ha, Hb.
  - destruct (py_min_cases va vb) as [-> | ->]; assumption.
Qed.

(** C6.  At every point where the operands have membership degrees [va] and
    [vb], the complement has the degree [1 - va], the union the greater and
    the intersection the smaller of [va] and [vb]. *)
Theorem set_algebra (A B : FuzzySet.t) (x va vb : Qc) :
  MembershipFunction.call (FuzzySet.mu A) x = ok va ->
  MembershipFunction.call (FuzzySet.mu B) x = ok vb ->
  (forall C, FuzzySet.complement A = ok C ->
     MembershipFunction.call (FuzzySet.mu C) x = ok (1 - va)) /\
  (forall U, FuzzySet.union A B = ok U ->
     MembershipFunction.call (FuzzySet.mu U) x = ok (py_max va vb) /\
     va <= py_max va vb /\ vb <= py_max va vb /\
     (py_max va vb = va \/ py_max va vb = vb)) /\
  (forall J, FuzzySet.intersection A B = ok J ->
     MembershipFunction.call (FuzzySet.mu J) x = ok (py_min va vb) /\
     py_min va vb <= va /\ py_min va vb <= vb /\
     (py_min va vb = va \/ py_min va vb = vb)).
Proof.
  intros Ha Hb. repeat split.
  - intros C HC. eapply complement_call; eassumption.
  - eapply union_call; eassumption.
  - apply py_max_l.
  - apply py_max_r.
  - apply py_max_cases.
  - eapply intersection_call; eassumption.
  - apply py_min_l.
  - apply py_min_r.
  - apply py_min_cases.
Qed.

Lemma set_algebra_witness :
  exists C U J,
    FuzzySet.complement low = ok C /\
    FuzzySet.union low mid = ok U /\
    FuzzySet.intersection low mid = ok J /\
    MembershipFunction.call (FuzzySet.mu C) (num 30) = ok (1 - Q2Qc (2 # 5)) /\
    MembershipFunction.call (FuzzySet.mu U) (num 30)
    = ok (py_max (Q2Qc (2 # 5)) (Q2Qc (1 # 5))) /\
    MembershipFunction.call (FuzzySet.mu J) (num 30)
    = ok (py_min (Q2Qc (2 # 5)) (Q2Qc (1 # 5))).
Proof.
  assert (Ha : MembershipFunction.call (FuzzySet.mu low) (num 30)
               = ok (Q2Qc (2 # 5))) by qc_compute.
  assert (Hb : MembershipFunction.call (FuzzySet.mu mid) (num 30)
               = ok (Q2Qc (1 # 5))) by qc_compute.
  destruct (returns_ok (FuzzySet.complement low)) as [C EC];
    [vm_compute; reflexivity|].
  destruct (returns_ok (FuzzySet.union low mid)) as [U EU];
    [vm_compute; reflexivity|].
  destruct (returns_ok (FuzzySet.intersection low mid)) as [J EJ];
    [vm_compute; reflexivity|].
  destruct (set_algebra low mid _ Ha Hb) as (HC & HU & HJ).
  exists C, U, J. repeat split; try assumption.
  - exact (HC C EC).
  - exact (proj1 (HU U EU)).
  - exact (proj1 (HJ J EJ)).
Defined.

(** ** Inference *)

Lemma clip_into_table (degree : Qc) (cmu : MembershipFunction.t)
      (ys ks : list Qc) (g : Qc -> Qc) :
  NoDup ks -> incl ys ks ->
  (forall y, In y ys -> is_ok (MembershipFunction.call cmu y)) ->
  FuzzyInferenceSystem.clip_into degree cmu ys (table ks g)
  = ok (table ks (fun k =>
          if mem k ys
          then py_max (g k)
                      (py_min degree (value_of (MembershipFunction.call cmu k)))
          else g k)).
Proof.
  intros ND. revert g.
  induction ys as [|y ys IH]; intros g Hin Hok; simpl; [reflexivity|].
  assert (Hy : In y ks) by (apply Hin; now left).
  rewrite dict_get_table by assumption. simpl.
  rewrite (is_ok_value (MembershipFunction.call cmu y)) by (apply Hok; now left).
  simpl. rewrite dict_set_table_in by assumption.
  rewrite IH.
  - f_equal. apply table_ext. intros k _.
    destruct (Qceqb k y) eqn:E.
    + apply Qceqb_eq in E. subst k. rewrite Qceqb_refl. simpl.
      destruct (mem y ys); [apply py_max_idem_r | reflexivity].
    + apply Qceqb_neq in E.
      assert (E' : Qceqb y k = false) by (apply Qceqb_neq; congruence).
      rewrite E'. reflexivity.
  - intros a Ha. apply Hin. now right.
  - intros a Ha. apply Hok. now right.
Qed.

Lemma clip_into_ok (degree : Qc) (cmu : MembershipFunction.t)
      (ys : list Qc) (agg agg' : dict) :
  FuzzyInferenceSystem.clip_into degree cmu ys agg = ok agg' ->
  forall y, In y ys -> is_ok (MembershipFunction.call cmu y).
Proof.
  revert agg. induction ys as [|z ys IH]; intros agg H y Hy; [contradiction|].
  simpl in H. apply bind_ok in H. destruct H as (cur & _ & H).
  apply bind_ok in H. destruct H as (m & Hm & H).
  destruct Hy as [<- | Hy]; [now rewrite Hm | eauto].
Qed.

Lemma aggregate_table (rs : list FuzzyRule.t) (inp : inputs)
      (ys ks : list Qc) (g : Qc -> Qc) :
  NoDup ks -> incl ys ks -> Forall (fires inp ys) rs ->
  FuzzyInferenceSystem.aggregate rs inp ys (table ks g)
  = ok (table ks (fun k =>
          if mem k ys then aggregated_from (g k) inp k rs else g k)).
Proof.
  intros ND Hin. revert g.
  induction rs as [|r rs IH]; intros g F; simpl.
  - f_equal. apply table_ext. intros k _. now destruct (mem k ys).
  - inversion F as [|? ? [Ha Hc] F']; subst.
    rewrite (is_ok_value _ Ha). simpl.
    rewrite clip_into_table by assumption. simpl.
    rewrite IH by assumption.
    f_equal. apply table_ext. intros k _.
    destruct (mem k ys); reflexivity.
Qed.

Lemma aggregate_ok (rs : list FuzzyRule.t) (inp : inputs)
      (ys : list Qc) (agg agg' : dict) :
  FuzzyInferenceSystem.aggregate rs inp ys agg = ok agg' ->
  Forall (fires inp ys) rs.
Proof.
  revert agg. induction rs as [|r rs IH]; intros agg H; [constructor|].
  simpl in H. apply bind_ok in H. destruct H as (degree & Hd & H).
  apply bind_ok in H. destruct H as (agg1 & H1 & H).
  constructor; [|eauto].
  split; [now rewrite Hd | eapply clip_into_ok; eassumption].
Qed.

Lemma zeros_table (ys : list Qc) :
  dict_comp (fun _ => ok 0) ys [] = ok (table (distinct ys) (fun _ => 0)).
Proof. now rewrite dict_comp_fresh by (intros; exact I). Qed.

(** [infer] in closed form, when every rule fires. *)
Lemma infer_table (self : FuzzyInferenceSystem.t) (inp : inputs) :
  Forall (fires inp (FuzzyInferenceSystem.output_range self))
         (FuzzyInferenceSystem.rules self) ->
  FuzzyInferenceSystem.infer self inp
  = ok (table (distinct (FuzzyInferenceSystem.output_range self))
              (fun y => aggregated_from 0 inp y
                                        (FuzzyInferenceSystem.rules self))).
Proof.
  intro F. unfold FuzzyInferenceSystem.infer.
  rewrite zeros_table. simpl.
  rewrite aggregate_table.
  - f_equal. apply table_ext. intros k Hk.
    apply (proj1 (distinct_In _ _)) in Hk.
    apply (proj2 (mem_In _ _)) in Hk. now rewrite Hk.
  - apply distinct_NoDup.
  - intros y Hy. now apply distinct_In.
  - assumption.
Qed.

(** [infer] returns only when every rule fires. *)
Lemma infer_ok (self : FuzzyInferenceSystem.t) (inp : inputs) (agg : dict) :
  FuzzyInferenceSystem.infer self inp = ok agg ->
  Forall (fires inp (FuzzyInferenceSystem.output_range self))
         (FuzzyInferenceSystem.rules self).
Proof.
  unfold FuzzyInferenceSystem.infer. intro H.
  apply bind_ok in H. destruct H as (agg0 & _ & H).
  eapply aggregate_ok; eassumption.
Qed.

(** *** The aggregated degree *)

Lemma aggregated_from_max (start : Qc) (inp : inputs) (y : Qc)
      (rs : list FuzzyRule.t) :
  is_max_of (aggregated_from start inp y rs) (start :: map (clipped inp y) rs).
Proof.
  revert start. induction rs as [|r rs IH]; intro start; simpl.
  - split; [now left|]. intros w [<- | []]. apply Qcle_refl.
  - destruct (IH (py_max start (clipped inp y r))) as [HI HU].
    fold (aggregated_from (py_max start (clipped inp y r)) inp y rs) in *.
    split.
    + destruct HI as [HI | HI]; [|now right; right].
      rewrite <- HI.
      destruct (py_max_cases start (clipped inp y r)) as [-> | ->];
        [now left | now right; left].
    + intros w [<- | [<- | Hw]].
      * eapply Qcle_trans; [apply py_max_l | apply HU; now left].
      * eapply Qcle_trans; [apply py_max_r | apply HU; now left].
      * apply HU. now right.
Qed.

Lemma is_max_of_unique (v v' : Qc) (l l' : list Qc) :
  is_max_of v l -> is_max_of v' l' ->
  (forall w, In w l <-> In w l') -> v = v'.
Proof.
  intros [Hi Hu] [Hi' Hu'] E.
  apply Qcle_antisym; [apply Hu', E, Hi | apply Hu, E, Hi'].
Qed.

Lemma clipped_le_one (inp : inputs) (y : Qc) (r : FuzzyRule.t) :
  clipped inp y r <= 1.
Proof.
  unfold clipped. eapply Qcle_trans; [apply py_min_r|].
  destruct (MembershipFunction.call _ y) as [v | e] eqn:E; simpl.
  - apply (call_bounds _ _ E).
  - qc_lra.
Qed.

Lemma clipped_nonneg (inp : inputs) (y : Qc) (r : FuzzyRule.t) :
  0 <= value_of (FuzzyRule.antecedent r inp) -> 0 <= clipped inp y r.
Proof.
  intro H. unfold clipped. apply py_min_glb; [assumption|].
  destruct (MembershipFunction.call _ y) as [v | e] eqn:E; simpl.
  - apply (call_bounds _ _ E).
  - apply Qcle_refl.
Qed.

Lemma aggregated_from_bounds (inp : inputs) (y : Qc) (rs : list FuzzyRule.t) :
  0 <= aggregated_from 0 inp y rs <= 1.
Proof.
  destruct (aggregated_from_max 0 inp y rs) as [HI HU]. split.
  - apply HU. now left.
  - destruct HI as [<- | HI]; [qc_lra|].
    apply in_map_iff in HI. destruct HI as (r & <- & _).
    apply clipped_le_one.
Qed.

Lemma triangular_call_ok (a b c y : Qc) :
  is_ok (MembershipFunction.call (triangular a b c) y).
Proof.
  destruct (triangular_mu_total a b c y) as [raw H].
  erewrite call_of_raw by exact H. exact I.
Qed.

Lemma mu_built (m : MembershipFunction.t) (u : list Qc) :
  is_ok (FuzzySet.init m u) -> FuzzySet.mu (built (FuzzySet.init m u)) = m.
Proof.
  destruct (FuzzySet.init m u) as [A | e] eqn:E; simpl; [|contradiction].
  intros _. now apply init_inv in E.
Qed.

Lemma mu_output : FuzzySet.mu output = triangular (num 0) (num 0) (num 50).
Proof. apply mu_built. vm_compute. exact I. Qed.

(** C1.  For rules within their contract -- every rule fires and no firing
    degree is negative, as for degrees in [0, 1] -- [infer] returns a mapping
    over the output points that holds, at each point [y], the maximum over
    all rules of [min(rule.antecedent(inputs), rule.consequent.mu(y))]; when
    there is no rule it holds 0.0 at every output point. *)
Theorem infer_max_over_rules (self : FuzzyInferenceSystem.t) (inp : inputs) :
  Forall (fires inp (FuzzyInferenceSystem.output_range self))
         (FuzzyInferenceSystem.rules self) ->
  (forall r, In r (FuzzyInferenceSystem.rules self) ->
             0 <= value_of (FuzzyRule.antecedent r inp)) ->
  exists agg,
    FuzzyInferenceSystem.infer self inp = ok agg /\
    keys agg = distinct (FuzzyInferenceSystem.output_range self) /\
    forall y, In y (FuzzyInferenceSystem.output_range self) ->
      exists v, dict_get y agg = ok v /\
        (FuzzyInferenceSystem.rules self = [] -> v = 0) /\
        (FuzzyInferenceSystem.rules self <> [] ->
         is_max_of v (map (clipped inp y) (FuzzyInferenceSystem.rules self))).
Proof.
  intros F N. eexists. split; [apply (infer_table _ F)|].
  split; [apply keys_table|].
  intros y Hy. eexists. split.
  { apply dict_get_table. now apply distinct_In. }
  pose proof (aggregated_from_max 0 inp y (FuzzyInferenceSystem.rules self))
    as [HI HU].
  split.
  - intros E. rewrite E. reflexivity.
  - intro NE. split; [|intros w Hw; apply HU; now right].
    destruct HI as [HI | HI]; [|assumption].
    assert (Hex : exists r, In r (FuzzyInferenceSystem.rules self)).
    { destruct (FuzzyInferenceSystem.rules self) as [|r rs] eqn:E;
        [now elim NE | exists r; now left]. }
    destruct Hex as [r Hr].
    assert (Hc : In (clipped inp y r)
                    (map (clipped inp y) (FuzzyInferenceSystem.rules self)))
      by (now apply in_map).
    assert (L : clipped inp y r
                <= aggregated_from 0 inp y (FuzzyInferenceSystem.rules self))
      by (apply HU; now right).
    assert (G : 0 <= clipped inp y r) by (apply clipped_nonneg; now apply N).
    rewrite <- HI in L |- *.
    replace 0 with (clipped inp y r) by (now apply Qcle_antisym).
    assumption.
Qed.

Lemma engine_fires :
  Forall (fires [("speed"%string, num 30)]
                (FuzzyInferenceSystem.output_range engine))
         (FuzzyInferenceSystem.rules engine).
Proof.
  repeat constructor.
  intros y _.
  change (is_ok (MembershipFunction.call (FuzzySet.mu output) y)).
  rewrite mu_output. apply triangular_call_ok.
Qed.

Lemma infer_max_over_rules_witness :
  exists agg,
    FuzzyInferenceSystem.infer engine [("speed"%string, num 30)] = ok agg /\
    keys agg = distinct x_universe /\
    exists v, dict_get (num 10) agg = ok v /\
      is_max_of v (map (clipped [("speed"%string, num 30)] (num 10))
                       (FuzzyInferenceSystem.rules engine)).
Proof.
  destruct (infer_max_over_rules engine engine_fires) as (agg & H & K & P).
  - intros r [<- | []]. vm_compute. discriminate.
  - exists agg. split; [exact H|]. split; [exact K|].
    destruct (P (num 10)) as (v & Hv & _ & Hmax).
    + vm_compute. tauto.
    + exists v. split; [exact Hv|]. apply Hmax. discriminate.
Defined.

(** ** Aggregated degrees stay in the unit interval *)

(** C9.  Every value of the mapping returned by [infer] lies between 0 and
    1, whatever the firing degrees of the rules are. *)
Theorem infer_in_unit_interval (self : FuzzyInferenceSystem.t) (inp : inputs)
        (agg : dict) :
  FuzzyInferenceSystem.infer self inp = ok agg ->
  forall y v, In (y, v) (items agg) -> 0 <= v <= 1.
Proof.
  intros H y v Hin.
  rewrite (infer_table _ (infer_ok _ _ H)) in H. inversion H; subst agg.
  apply In_table in Hin. destruct Hin as [_ ->].
  apply aggregated_from_bounds.
Qed.

Lemma infer_in_unit_interval_witness :
  exists agg,
    FuzzyInferenceSystem.infer wild_engine [] = ok agg /\
    forall y v, In (y, v) (items agg) -> 0 <= v <= 1.
Proof.
  destruct (returns_ok (FuzzyInferenceSystem.infer wild_engine []))
    as [agg E]; [vm_compute; reflexivity|].
  exists agg. split; [exact E|].
  exact (infer_in_unit_interval wild_engine [] E).
Defined.

(** ** The order of the rules *)

(** C7.  Two systems with the same output range whose rules are the same up
    to their order return the same mapping on every input record. *)
Theorem infer_order_irrelevant (s1 s2 : FuzzyInferenceSystem.t) (inp : inputs)
        (agg : dict) :
  FuzzyInferenceSystem.output_range s1 = FuzzyInferenceSystem.output_range s2 ->
  Permutation (FuzzyInferenceSystem.rules s1) (FuzzyInferenceSystem.rules s2) ->
  FuzzyInferenceSystem.infer s1 inp = ok agg ->
  FuzzyInferenceSystem.infer s2 inp = ok agg.
Proof.
  intros Hy Hp H.
  pose proof (infer_ok _ _ H) as F1.
  assert (F2 : Forall (fires inp (FuzzyInferenceSystem.output_range s2))
                      (FuzzyInferenceSystem.rules s2)).
  { rewrite <- Hy. eapply Permutation_Forall; eassumption. }
  rewrite (infer_table _ F1) in H. rewrite (infer_table _ F2), <- H, <- Hy.
  f_equal. apply table_ext. intros y _.
  eapply is_max_of_unique; try apply aggregated_from_max.
  intro w. simpl.
  assert (P : Permutation (map (clipped inp y) (FuzzyInferenceSystem.rules s2))
                          (map (clipped inp y) (FuzzyInferenceSystem.rules s1)))
    by (apply Permutation_map; now symmetry).
  split; (intros [E | Hw]; [now left | right]).
  - eapply Permutation_in; [exact P | exact Hw].
  - eapply Permutation_in; [symmetry; exact P | exact Hw].
Qed.

Lemma infer_order_irrelevant_witness :
  exists agg,
    FuzzyInferenceSystem.infer engine_12 [("speed"%string, num 30)] = ok agg /\
    FuzzyInferenceSystem.infer engine_21 [("speed"%string, num 30)] = ok agg.
Proof.
  destruct (returns_ok (FuzzyInferenceSystem.infer
                          engine_12 [("speed"%string, num 30)]))
    as [agg E]; [vm_compute; reflexivity|].
  exists agg. split; [exact E|].
  refine (infer_order_irrelevant engine_12 engine_21 _ _ _ E).
  - reflexivity.
  - apply perm_swap.
Defined.

(** ** Defuzzification *)

Lemma fold_left_plus (l : list Qc) (a : Qc) :
  fold_left Qcplus l a = a + fold_left Qcplus l 0.
Proof.
  revert a. induction l as [|x l IH]; intro a; simpl.
  - now rewrite Qcplus_0_r.
  - rewrite (IH (a + x)), (IH (0 + x)). ring.
Qed.

Lemma py_sum_cons (x : Qc) (l : list Qc) : py_sum (x :: l) = x + py_sum l.
Proof.
  unfold py_sum. simpl. rewrite fold_left_plus. ring.
Qed.

Lemma py_sum_weighted (aggregated : dict) :
  py_sum (map (fun '(y, mu) => y * mu) (items aggregated))
  = sum_weighted aggregated.
Proof.
  unfold items. induction aggregated as [|[y mu] rest IH]; [reflexivity|].
  cbn [map sum_weighted]. now rewrite py_sum_cons, IH.
Qed.

Lemma py_sum_degrees (aggregated : dict) :
  py_sum (values aggregated) = sum_degrees aggregated.
Proof.
  unfold values. induction aggregated as [|[y mu] rest IH]; [reflexivity|].
  cbn [map snd sum_degrees]. now rewrite py_sum_cons, IH.
Qed.


(** * Beyond the stated properties *)

(** ** Quotients *)

Lemma Qcinv_pos (d : Qc) : 0 < d -> 0 < / d.
Proof.
  unfold Qclt, Qcinv, Q2Qc. cbn [this]. rewrite !Qred_correct.
  apply Qinv_lt_0_compat.
Qed.

Lemma Qcdiv_le_mono (p q d : Qc) : 0 < d -> p <= q -> p / d <= q / d.
Proof.
  intros Hd H. unfold Qcdiv. apply Qcmult_le_compat_r; [assumption|].
  apply Qclt_le_weak. now apply Qcinv_pos.
Qed.

Lemma Qcdiv_nonneg (p d : Qc) : 0 < d -> 0 <= p -> 0 <= p / d.
Proof.
  intros Hd H. replace 0 with (0 / d) by (unfold Qcdiv; apply Qcmult_0_l).
  now apply Qcdiv_le_mono.
Qed.

Lemma Qcdiv_le_one (p d : Qc) : 0 < d -> p <= d -> p / d <= 1.
Proof.
  intros Hd H. rewrite <- (@Qcdiv_same d) by (intro E; subst; qc_lra).
  now apply Qcdiv_le_mono.
Qed.

(** ** The shapes, region by region *)

Lemma triangular_mu_rise (a b c x : Qc) :
  a < x -> x < b -> x < c -> triangular_mu a b c x = ok ((x - a) / (b - a)).
Proof. intros. shape_cases; reflexivity. Qed.

Lemma triangular_mu_fall (a b c x : Qc) :
  a < x -> b <= x -> x < c -> triangular_mu a b c x = ok ((c - x) / (c - b)).
Proof. intros. shape_cases; reflexivity. Qed.

Lemma trapezoidal_mu_rise (a b c d x : Qc) :
  a < x -> x < b -> x < d -> trapezoidal_mu a b c d x = ok ((x - a) / (b - a)).
Proof. intros. shape_cases; reflexivity. Qed.

Lemma trapezoidal_mu_fall (a b c d x : Qc) :
  a < x -> b <= x -> c < x -> x < d ->
  trapezoidal_mu a b c d x = ok ((d - x) / (d - c)).
Proof. intros. shape_cases; reflexivity. Qed.

Lemma rise_bounds (a b x : Qc) :
  a < x -> x < b -> 0 <= (x - a) / (b - a) <= 1.
Proof.
  intros. split; [apply Qcdiv_nonneg | apply Qcdiv_le_one]; qc_lra.
Qed.

Lemma fall_bounds (b c x : Qc) :
  b <= x -> x < c -> 0 <= (c - x) / (c - b) <= 1.
Proof.
  intros. split; [apply Qcdiv_nonneg | apply Qcdiv_le_one]; qc_lra.
Qed.

Lemma triangular_mu_bounds (a b c x : Qc) :
  0 <= value_of (triangular_mu a b c x) <= 1.
Proof.
  destruct (Qclt_le_dec a x) as [Ha | Ha];
    [| rewrite triangular_mu_outside by (now left); simpl; qc_lra].
  destruct (Qclt_le_dec x c) as [Hc | Hc];
    [| rewrite triangular_mu_outside by (now right); simpl; qc_lra].
  destruct (Qclt_le_dec x b) as [Hb | Hb].
  - rewrite triangular_mu_rise by assumption. now apply rise_bounds.
  - rewrite triangular_mu_fall by assumption. now apply fall_bounds.
Qed.

Lemma trapezoidal_mu_bounds (a b c d x : Qc) :
  0 <= value_of (trapezoidal_mu a b c d x) <= 1.
Proof.
  destruct (Qclt_le_dec a x) as [Ha | Ha];
    [| rewrite trapezoidal_mu_outside by (now left); simpl; qc_lra].
  destruct (Qclt_le_dec x d) as [Hd | Hd];
    [| rewrite trapezoidal_mu_outside by (now right); simpl; qc_lra].
  destruct (Qclt_le_dec x b) as [Hb | Hb].
  - rewrite trapezoidal_mu_rise by assumption. now apply rise_bounds.
  - destruct (Qclt_le_dec c x) as [Hx | Hx].
    + rewrite trapezoidal_mu_fall by assumption.
      apply fall_bounds; [now apply Qclt_le_weak | assumption].
    + rewrite trapezoidal_mu_plateau by (split; assumption). simpl. qc_lra.
Qed.

Lemma call_triangular (a b c x : Qc) :
  MembershipFunction.call (triangular a b c) x = triangular_mu a b c x.
Proof.
  pose proof (triangular_mu_bounds a b c x) as T.
  destruct (triangular_mu_total a b c x) as [t Ht].
  rewrite Ht in T |- *. now apply call_of_raw_unit.
Qed.

Lemma call_trapezoidal (a b c d x : Qc) :
  MembershipFunction.call (trapezoidal a b c d) x = trapezoidal_mu a b c d x.
Proof.
  pose proof (trapezoidal_mu_bounds a b c d x) as T.
  destruct (trapezoidal_mu_total a b c d x) as [t Ht].
  rewrite Ht in T |- *. now apply call_of_raw_unit.
Qed.






(** X5.  Feet given the wrong way round are not rejected and give the empty
    shape: [triangular(a, b, c)] with [c <= a] and [trapezoidal(a, b, c, d)]
    with [d <= a] are 0 at every point. *)
Theorem crossed_feet_give_zero (a b c d x : Qc) :
  (c <= a -> MembershipFunction.call (triangular a b c) x = ok 0) /\
  (d <= a -> MembershipFunction.call (trapezoidal a b c d) x = ok 0).
Proof.
  split; intro H.
  - rewrite call_triangular. apply triangular_mu_outside.
    destruct (Qclt_le_dec a x); [right | left]; qc_lra.
  - rewrite call_trapezoidal. apply trapezoidal_mu_outside.
    destruct (Qclt_le_dec a x); [right | left]; qc_lra.
Qed.

Lemma crossed_feet_give_zero_witness :
  MembershipFunction.call (triangular (num 50) (num 20) (num 10)) (num 30)
  = ok 0 /\
  MembershipFunction.call
    (trapezoidal (num 50) (num 20) (num 30) (num 10)) (num 30) = ok 0.
Proof.
  destruct (crossed_feet_give_zero (num 50) (num 20) (num 10) (num 10) (num 30))
    as [H1 _].
  destruct (crossed_feet_give_zero (num 50) (num 20) (num 30) (num 10) (num 30))
    as [_ H2].
  split; [apply H1 | apply H2]; discriminate.
Defined.

(** ** Derived sets *)

Lemma init_returns (m : MembershipFunction.t) (u : list Qc) :
  (forall x, In x u -> is_ok (MembershipFunction.call m x)) ->
  FuzzySet.init m u
  = ok (FuzzySet.Make m u
          (table (distinct u)
                 (fun k => value_of (MembershipFunction.call m k)))).
Proof.
  intro H. unfold FuzzySet.init. now rewrite dict_comp_fresh.
Qed.

Lemma init_calls_ok (m : MembershipFunction.t) (u : list Qc) (A : FuzzySet.t) :
  FuzzySet.init m u = ok A ->
  forall x, In x u -> is_ok (MembershipFunction.call m x).
Proof.
  unfold FuzzySet.init. intro H. apply bind_ok in H.
  destruct H as (d & Hd & _). eapply dict_comp_ok; eassumption.
Qed.

Lemma complement_mf_call (A : FuzzySet.t) (n : option display_name)
      (x va : Qc) :
  MembershipFunction.call (FuzzySet.mu A) x = ok va ->
  MembershipFunction.call
    (MembershipFunction.init (FuzzySet.complement_func A) n) x = ok (1 - va).
Proof.
  intro Ha. pose proof (call_bounds _ _ Ha) as [L U].
  apply call_of_raw_unit.
  - rewrite func_init. simpl. now rewrite Ha.
  - split; qc_lra.
Qed.

(** X6.  The complement of a constructed set is always constructed: it keeps
    the universe, its cached table has the same keys in the same order, and
    it caches [1 - v] wherever the set caches [v]. *)
Theorem complement_of_built (m : MembershipFunction.t) (u : list Qc)
        (A : FuzzySet.t) :
  FuzzySet.init m u = ok A ->
  exists C,
    FuzzySet.complement A = ok C /\
    FuzzySet.universe C = u /\
    MembershipFunction.name (FuzzySet.mu C)
    = not_ (MembershipFunction.name m) /\
    keys (FuzzySet.members C) = keys (FuzzySet.members A) /\
    forall k v, In (k, v) (items (FuzzySet.members A)) ->
                In (k, 1 - v) (items (FuzzySet.members C)).
Proof.
  intro H. pose proof (init_calls_ok _ _ H) as Hok.
  apply init_inv in H. destruct H as (Hm & Hu & Hd).
  unfold FuzzySet.complement. rewrite Hu, Hm.
  assert (Hc : forall x, In x u ->
             MembershipFunction.call
               (MembershipFunction.init
                  (FuzzySet.complement_func A)
                  (Some (not_ (MembershipFunction.name m)))) x
             = ok (1 - value_of (MembershipFunction.call m x))).
  { intros x Hx. apply complement_mf_call. rewrite Hm.
    apply is_ok_value. now apply Hok. }
  rewrite init_returns by (intros x Hx; now rewrite Hc).
  eexists. split; [reflexivity|]. simpl.
  split; [reflexivity|]. split; [reflexivity|].
  rewrite Hd, !keys_table. split; [reflexivity|].
  intros k v Hin. unfold items in *.
  apply In_table in Hin. destruct Hin as [Hk ->].
  apply In_table. split; [assumption|].
  rewrite Hc by (now apply distinct_In). reflexivity.
Qed.

Lemma complement_of_built_witness :
  exists A C,
    FuzzySet.init (triangular (num 0) (num 0) (num 50)) coarse = ok A /\
    FuzzySet.complement A = ok C /\
    FuzzySet.universe C = coarse /\
    keys (FuzzySet.members C) = keys (FuzzySet.members A).
Proof.
  destruct (returns_ok (FuzzySet.init (triangular (num 0) (num 0) (num 50))
                                      coarse))
    as [A E]; [vm_compute; reflexivity|].
  destruct (complement_of_built _ _ E) as (C & HC & HU & _ & HK & _).
  exists A, C. repeat split; assumption.
Defined.

Lemma de_morgan_max (va vb : Qc) :
  1 - py_max va vb = py_min (1 - va) (1 - vb).
Proof. unfold py_max, py_min, Qcgtb. cmp_cases; qc_lra. Qed.

Lemma de_morgan_min (va vb : Qc) :
  1 - py_min va vb = py_max (1 - va) (1 - vb).
Proof. unfold py_max, py_min, Qcgtb. cmp_cases; qc_lra. Qed.

(** X7.  De Morgan: the complement of a union has, at every point where the
    operands have degrees, the degree of the intersection of the
    complements; and the complement of an intersection that of the union of
    the complements. *)
Theorem de_morgan (A B Ac Bc U J Uc Jc W V : FuzzySet.t) (x va vb : Qc) :
  FuzzySet.complement A = ok Ac -> FuzzySet.complement B = ok Bc ->
  FuzzySet.union A B = ok U -> FuzzySet.intersection A B = ok J ->
  FuzzySet.complement U = ok Uc -> FuzzySet.complement J = ok Jc ->
  FuzzySet.intersection Ac Bc = ok W -> FuzzySet.union Ac Bc = ok V ->
  MembershipFunction.call (FuzzySet.mu A) x = ok va ->
  MembershipFunction.call (FuzzySet.mu B) x = ok vb ->
  MembershipFunction.call (FuzzySet.mu Uc) x
  = MembershipFunction.call (FuzzySet.mu W) x /\
  MembershipFunction.call (FuzzySet.mu Jc) x
  = MembershipFunction.call (FuzzySet.mu V) x.
Proof.
  intros HAc HBc HU HJ HUc HJc HW HV Ha Hb.
  pose proof (complement_call _ _ HAc Ha) as Hca.
  pose proof (complement_call _ _ HBc Hb) as Hcb.
  split.
  - rewrite (complement_call _ _ HUc (union_call _ _ _ HU Ha Hb)).
    rewrite (intersection_call _ _ _ HW Hca Hcb).
    f_equal. apply de_morgan_max.
  - rewrite (complement_call _ _ HJc (intersection_call _ _ _ HJ Ha Hb)).
    rewrite (union_call _ _ _ HV Hca Hcb).
    f_equal. apply de_morgan_min.
Qed.

Lemma built_ok (r : result FuzzySet.t) :
  returns r = true -> r = ok (built r).
Proof. destruct r; simpl; [reflexivity | discriminate]. Qed.

Lemma de_morgan_witness :
  MembershipFunction.call
    (FuzzySet.mu (built (FuzzySet.complement (built (FuzzySet.union low mid)))))
    (num 30)
  = MembershipFunction.call
      (FuzzySet.mu (built (FuzzySet.intersection
                             (built (FuzzySet.complement low))
                             (built (FuzzySet.complement mid)))))
      (num 30).
Proof.
  refine (proj1 (@de_morgan low mid _ _ _ _ _ _ _ _ (num 30)
                            (Q2Qc (2 # 5)) (Q2Qc (1 # 5))
                            (built_ok (FuzzySet.complement low) _)
                            (built_ok (FuzzySet.complement mid) _)
                            (built_ok (FuzzySet.union low mid) _)
                            (built_ok (FuzzySet.intersection low mid) _)
                            (built_ok _ _) (built_ok _ _)
                            (built_ok _ _)
                            (built_ok (FuzzySet.union
                                         (built (FuzzySet.complement low))
                                         (built (FuzzySet.complement mid))) _)
                            _ _));
    try (vm_compute; reflexivity); qc_compute.
Defined.

(** X8.  Union and intersection do not depend on the order of the operands
    as far as degrees go: at every point where both operands have degrees,
    [union(A, B)] and [union(B, A)] agree, and so do the intersections (the
    sets themselves differ: each keeps the universe of its first operand). *)
Theorem union_intersection_commute (A B U U' J J' : FuzzySet.t) (x va vb : Qc) :
  FuzzySet.union A B = ok U -> FuzzySet.union B A = ok U' ->
  FuzzySet.intersection A B = ok J -> FuzzySet.intersection B A = ok J' ->
  MembershipFunction.call (FuzzySet.mu A) x = ok va ->
  MembershipFunction.call (FuzzySet.mu B) x = ok vb ->
  MembershipFunction.call (FuzzySet.mu U) x
  = MembershipFunction.call (FuzzySet.mu U') x /\
  MembershipFunction.call (FuzzySet.mu J) x
  = MembershipFunction.call (FuzzySet.mu J') x /\
  FuzzySet.universe U = FuzzySet.universe A /\
  FuzzySet.universe U' = FuzzySet.universe B.
Proof.
  intros HU HU' HJ HJ' Ha Hb.
  rewrite (union_call _ _ _ HU Ha Hb), (union_call _ _ _ HU' Hb Ha).
  rewrite (intersection_call _ _ _ HJ Ha Hb), (intersection_call _ _ _ HJ' Hb Ha).
  repeat split.
  - f_equal. apply py_max_comm.
  - f_equal. unfold py_min. cmp_cases; qc_lra.
  - now apply init_inv in HU.
  - now apply init_inv in HU'.
Qed.

Lemma union_intersection_commute_witness :
  MembershipFunction.call (FuzzySet.mu (built (FuzzySet.union low mid))) (num 30)
  = MembershipFunction.call (FuzzySet.mu (built (FuzzySet.union mid low)))
                            (num 30).
Proof.
  refine (proj1 (@union_intersection_commute
                   low mid _ _ _ _ (num 30) (Q2Qc (2 # 5)) (Q2Qc (1 # 5))
                   (built_ok (FuzzySet.union low mid) _)
                   (built_ok (FuzzySet.union mid low) _)
                   (built_ok (FuzzySet.intersection low mid) _)
                   (built_ok (FuzzySet.intersection mid low) _) _ _));
    try (vm_compute; reflexivity); qc_compute.
Defined.

Lemma call_raises (f : MembershipFunction.t) (x : Qc) (e : exn) :
  fn_call (MembershipFunction.func f) x = raise e ->
  MembershipFunction.call f x = raise e.
Proof. unfold MembershipFunction.call. now intros ->. Qed.

(** X9.  An exception raised by the membership function of an operand at a
    point comes out of every derived set at that point: the complement, the
    union and the intersection raise what the first operand raises, and what
    the second operand raises when the first one has a degree. *)
Theorem derived_sets_propagate (A B C U J : FuzzySet.t) (x : Qc) (e : exn) :
  FuzzySet.complement A = ok C ->
  FuzzySet.union A B = ok U -> FuzzySet.intersection A B = ok J ->
  (MembershipFunction.call (FuzzySet.mu A) x = raise e ->
   MembershipFunction.call (FuzzySet.mu C) x = raise e /\
   MembershipFunction.call (FuzzySet.mu U) x = raise e /\
   MembershipFunction.call (FuzzySet.mu J) x = raise e) /\
  (forall va, MembershipFunction.call (FuzzySet.mu A) x = ok va ->
   MembershipFunction.call (FuzzySet.mu B) x = raise e ->
   MembershipFunction.call (FuzzySet.mu U) x = raise e /\
   MembershipFunction.call (FuzzySet.mu J) x = raise e).
Proof.
  intros HC HU HJ.
  apply init_inv in HC. destruct HC as (-> & _).
  apply init_inv in HU. destruct HU as (-> & _).
  apply init_inv in HJ. destruct HJ as (-> & _).
  split.
  - intro Ha. repeat split; apply call_raises; rewrite func_init; simpl;
      now rewrite Ha.
  - intros va Ha Hb. split; apply call_raises; rewrite func_init; simpl;
      now rewrite Ha, Hb.
Qed.

Lemma derived_sets_propagate_witness :
  MembershipFunction.call
    (FuzzySet.mu (built (FuzzySet.complement near_zero))) 0
  = raise ZeroDivisionError /\
  MembershipFunction.call
    (FuzzySet.mu (built (FuzzySet.union near_zero near_zero))) 0
  = raise ZeroDivisionError.
Proof.
  destruct (@derived_sets_propagate
              near_zero near_zero _ _ _ 0 ZeroDivisionError
              (built_ok (FuzzySet.complement near_zero) eq_refl)
              (built_ok (FuzzySet.union near_zero near_zero) eq_refl)
              (built_ok (FuzzySet.intersection near_zero near_zero) eq_refl))
    as [H _].
  destruct H as (HC & HU & _); [reflexivity|].
  split; assumption.
Defined.

(** ** Growing the rule base *)

Lemma aggregated_from_app (start : Qc) (inp : inputs) (y : Qc)
      (rs : list FuzzyRule.t) (r : FuzzyRule.t) :
  aggregated_from start inp y (rs ++ [r])
  = py_max (aggregated_from start inp y rs) (clipped inp y r).
Proof. unfold aggregated_from. now rewrite fold_left_app. Qed.

Lemma infer_add_rule (self : FuzzyInferenceSystem.t) (r : FuzzyRule.t)
      (inp : inputs) (agg : dict) :
  FuzzyInferenceSystem.infer self inp = ok agg ->
  fires inp (FuzzyInferenceSystem.output_range self) r ->
  agg = table (distinct (FuzzyInferenceSystem.output_range self))
              (fun y => aggregated_from 0 inp y
                          (FuzzyInferenceSystem.rules self)) /\
  FuzzyInferenceSystem.infer (FuzzyInferenceSystem.add_rule self r) inp
  = ok (table (distinct (FuzzyInferenceSystem.output_range self))
              (fun y => py_max (aggregated_from 0 inp y
                                  (FuzzyInferenceSystem.rules self))
                               (clipped inp y r))).
Proof.
  intros H Hr. pose proof (infer_ok _ _ H) as F.
  rewrite (infer_table _ F) in H. inversion H as [E]. split; [reflexivity|].
  rewrite infer_table.
  - simpl. f_equal. apply table_ext. intros y _. apply aggregated_from_app.
  - simpl. apply Forall_app. split; [assumption | now constructor].
Qed.

(** X10.  Adding a rule that fires takes, at every output point, the greater
    of the degree inferred so far and the new rule's clipped consequent
    [min(degree, mu(y))]; the keys stay as they are and no degree goes
    down. *)
Theorem add_rule_raises_degrees (self : FuzzyInferenceSystem.t)
        (r : FuzzyRule.t) (inp : inputs) (agg : dict) :
  FuzzyInferenceSystem.infer self inp = ok agg ->
  fires inp (FuzzyInferenceSystem.output_range self) r ->
  exists agg' d,
    FuzzyInferenceSystem.infer (FuzzyInferenceSystem.add_rule self r) inp
    = ok agg' /\
    FuzzyRule.antecedent r inp = ok d /\
    keys agg' = keys agg /\
    forall y v, In (y, v) (items agg) ->
      exists m,
        MembershipFunction.call (FuzzySet.mu (FuzzyRule.consequent r)) y = ok m
        /\ In (y, py_max v (py_min d m)) (items agg')
        /\ v <= py_max v (py_min d m).
Proof.
  intros H Hr. destruct (@infer_add_rule _ _ _ _ H Hr) as [-> H'].
  destruct Hr as [Ha Hc].
  exists (table (distinct (FuzzyInferenceSystem.output_range self))
           (fun y => py_max (aggregated_from 0 inp y
                               (FuzzyInferenceSystem.rules self))
                            (clipped inp y r))),
         (value_of (FuzzyRule.antecedent r inp)).
  split; [exact H'|]. split; [now apply is_ok_value|].
  rewrite !keys_table. split; [reflexivity|].
  intros y v Hin. unfold items in *.
  apply In_table in Hin. destruct Hin as [Hy ->].
  exists (value_of (MembershipFunction.call
                      (FuzzySet.mu (FuzzyRule.consequent r)) y)).
  split; [apply is_ok_value, Hc; now apply distinct_In|].
  split; [|apply py_max_l].
  apply In_table. split; [assumption | reflexivity].
Qed.

Lemma add_rule_raises_degrees_witness :
  exists agg agg',
    FuzzyInferenceSystem.infer
      (FuzzyInferenceSystem.add_rule
         (FuzzyInferenceSystem.init coarse coarse) low_rule)
      [("speed"%string, num 30)] = ok agg /\
    FuzzyInferenceSystem.infer engine_12 [("speed"%string, num 30)] = ok agg' /\
    keys agg' = keys agg.
Proof.
  destruct (returns_ok (FuzzyInferenceSystem.infer
                          (FuzzyInferenceSystem.add_rule
                             (FuzzyInferenceSystem.init coarse coarse) low_rule)
                          [("speed"%string, num 30)]))
    as [agg E]; [vm_compute; reflexivity|].
  destruct (@add_rule_raises_degrees _ mid_rule _ _ E)
    as (agg' & d & H & _ & K & _).
  - split; [vm_compute; exact I|].
    intros y Hy. simpl in Hy.
    repeat (destruct Hy as [<- | Hy]; [vm_compute; exact I|]).
    contradiction.
  - exists agg, agg'. repeat split; assumption.
Defined.

Lemma py_max_absorbs (v c : Qc) : c <= v -> py_max v c = v.
Proof. intro. unfold py_max, Qcgtb. cmp_cases; qc_lra. Qed.

Lemma clipped_le_degree (inp : inputs) (y : Qc) (r : FuzzyRule.t) :
  clipped inp y r <= value_of (FuzzyRule.antecedent r inp).
Proof. apply py_min_l. Qed.

(** X11.  A rule whose firing degree is 0 or less changes nothing: adding it
    to a system leaves the inferred mapping as it was. *)
Theorem unfired_rule_adds_nothing (self : FuzzyInferenceSystem.t)
        (r : FuzzyRule.t) (inp : inputs) (agg : dict) (d : Qc) :
  FuzzyInferenceSystem.infer self inp = ok agg ->
  fires inp (FuzzyInferenceSystem.output_range self) r ->
  FuzzyRule.antecedent r inp = ok d -> d <= 0 ->
  FuzzyInferenceSystem.infer (FuzzyInferenceSystem.add_rule self r) inp = ok agg.
Proof.
  intros H Hr Hd Hle. destruct (@infer_add_rule _ _ _ _ H Hr) as [-> H'].
  rewrite H'. f_equal. apply table_ext. intros y _.
  apply py_max_absorbs.
  eapply Qcle_trans; [apply clipped_le_degree|].
  rewrite Hd. simpl.
  eapply Qcle_trans; [exact Hle | apply aggregated_from_bounds].
Qed.

Lemma unfired_rule_adds_nothing_witness :
  exists agg,
    FuzzyInferenceSystem.infer
      (FuzzyInferenceSystem.add_rule
         (FuzzyInferenceSystem.init coarse [num 10; num 40; num 60])
         (FuzzyRule.Make (fun _ => ok (num 2)) mid)) [] = ok agg /\
    FuzzyInferenceSystem.infer wild_engine [] = ok agg.
Proof.
  destruct (returns_ok (FuzzyInferenceSystem.infer
      (FuzzyInferenceSystem.add_rule
         (FuzzyInferenceSystem.init coarse [num 10; num 40; num 60])
         (FuzzyRule.Make (fun _ => ok (num 2)) mid)) []))
    as [agg E]; [vm_compute; reflexivity|].
  exists agg. split; [exact E|].
  apply (@unfired_rule_adds_nothing _ negative_rule _ _ (num (-1)) E).
  - split; [exact I|].
    intros y Hy. simpl in Hy.
    repeat (destruct Hy as [<- | Hy]; [vm_compute; exact I|]).
    contradiction.
  - reflexivity.
  - discriminate.
Defined.

(** X12.  [add_rule] appends without looking: a rule the system already
    holds is appended once more, so that the rule sequence grows by one, and
    [infer] then returns the mapping it returned before. *)
Theorem repeated_rule_adds_nothing (self : FuzzyInferenceSystem.t)
        (r : FuzzyRule.t) (inp : inputs) (agg : dict) :
  FuzzyInferenceSystem.infer self inp = ok agg ->
  In r (FuzzyInferenceSystem.rules self) ->
  FuzzyInferenceSystem.rules (FuzzyInferenceSystem.add_rule self r)
  = FuzzyInferenceSystem.rules self ++ [r] /\
  List.length
    (FuzzyInferenceSystem.rules (FuzzyInferenceSystem.add_rule self r))
  = S (List.length (FuzzyInferenceSystem.rules self)) /\
  FuzzyInferenceSystem.infer (FuzzyInferenceSystem.add_rule self r) inp = ok agg.
Proof.
  intros H Hin. split; [reflexivity|].
  split; [simpl; rewrite List.length_app; simpl; lia|].
  pose proof (infer_ok _ _ H) as F.
  assert (Hr : fires inp (FuzzyInferenceSystem.output_range self) r)
    by (eapply Forall_forall; eassumption).
  destruct (@infer_add_rule _ _ _ _ H Hr) as [-> H'].
  rewrite H'. f_equal. apply table_ext. intros y _.
  apply py_max_absorbs.
  destruct (aggregated_from_max 0 inp y (FuzzyInferenceSystem.rules self))
    as [_ HU].
  apply HU. right. now apply in_map.
Qed.

Lemma repeated_rule_adds_nothing_witness :
  exists agg,
    FuzzyInferenceSystem.infer engine_12 [("speed"%string, num 30)] = ok agg /\
    FuzzyInferenceSystem.rules (FuzzyInferenceSystem.add_rule engine_12 low_rule)
    = [low_rule; mid_rule; low_rule] /\
    FuzzyInferenceSystem.infer
      (FuzzyInferenceSystem.add_rule engine_12 low_rule)
      [("speed"%string, num 30)] = ok agg.
Proof.
  destruct (returns_ok (FuzzyInferenceSystem.infer
                          engine_12 [("speed"%string, num 30)]))
    as [agg E]; [vm_compute; reflexivity|].
  exists agg. split; [exact E|].
  destruct (repeated_rule_adds_nothing engine_12 low_rule _ E)
    as (HR & _ & HI).
  - simpl. now left.
  - split; [exact HR | exact HI].
Defined.

(** ** Exceptions during inference *)

Lemma aggregate_raises (rs1 rs2 : list FuzzyRule.t) (r : FuzzyRule.t)
      (inp : inputs) (ys ks : list Qc) (g : Qc -> Qc) (e : exn) :
  NoDup ks -> incl ys ks -> Forall (fires inp ys) rs1 ->
  (forall g',
     bind (FuzzyRule.antecedent r inp)
          (fun degree =>
             FuzzyInferenceSystem.clip_into
               degree (FuzzySet.mu (FuzzyRule.consequent r)) ys (table ks g'))
     = raise e) ->
  FuzzyInferenceSystem.aggregate (rs1 ++ r :: rs2) inp ys (table ks g) = raise e.
Proof.
  intros ND Hin F. revert g.
  induction F as [|r1 rs1 [Ha Hc] F IH]; intros g He; simpl.
  - pose proof (He g) as H.
    destruct (FuzzyRule.antecedent r inp) as [d | e']; simpl in *.
    + now rewrite H.
    + exact H.
  - rewrite (is_ok_value _ Ha). simpl.
    rewrite clip_into_table by assumption. simpl. now apply IH.
Qed.

Lemma clip_into_raises (degree : Qc) (cmu : MembershipFunction.t)
      (ys1 ys2 : list Qc) (y : Qc) (e : exn) (ks : list Qc) (g : Qc -> Qc) :
  NoDup ks -> incl (ys1 ++ y :: ys2) ks ->
  (forall z, In z ys1 -> is_ok (MembershipFunction.call cmu z)) ->
  MembershipFunction.call cmu y = raise e ->
  FuzzyInferenceSystem.clip_into degree cmu (ys1 ++ y :: ys2) (table ks g)
  = raise e.
Proof.
  intros ND. revert g.
  induction ys1 as [|z ys1 IH]; intros g Hin Hok He; simpl.
  - rewrite dict_get_table by (apply Hin; now left). simpl. now rewrite He.
  - assert (Hz : In z ks) by (apply Hin; now left).
    rewrite dict_get_table by assumption. simpl.
    rewrite (is_ok_value (MembershipFunction.call cmu z))
      by (apply Hok; now left).
    simpl. rewrite dict_set_table_in by assumption.
    apply IH; [| | assumption].
    + intros a Ha. apply Hin. now right.
    + intros a Ha. apply Hok. now right.
Qed.

(** X13.  [infer] swallows no exception.  When the rules before a rule all
    fire and that rule's antecedent raises, [infer] raises the same
    exception; and so it does when the antecedent returns but the
    consequent's membership function raises at an output point, the earlier
    points being fine. *)
Theorem infer_raises_first_failure (self : FuzzyInferenceSystem.t)
        (rs1 rs2 : list FuzzyRule.t) (r : FuzzyRule.t) (inp : inputs)
        (e : exn) :
  FuzzyInferenceSystem.rules self = rs1 ++ r :: rs2 ->
  Forall (fires inp (FuzzyInferenceSystem.output_range self)) rs1 ->
  (FuzzyRule.antecedent r inp = raise e ->
   FuzzyInferenceSystem.infer self inp = raise e) /\
  (forall d ys1 y ys2,
     FuzzyRule.antecedent r inp = ok d ->
     FuzzyInferenceSystem.output_range self = ys1 ++ y :: ys2 ->
     (forall z, In z ys1 ->
        is_ok (MembershipFunction.call
                 (FuzzySet.mu (FuzzyRule.consequent r)) z)) ->
     MembershipFunction.call (FuzzySet.mu (FuzzyRule.consequent r)) y = raise e ->
     FuzzyInferenceSystem.infer self inp = raise e).
Proof.
  intros Hr F. unfold FuzzyInferenceSystem.infer.
  rewrite zeros_table, Hr. simpl.
  assert (ND := distinct_NoDup (FuzzyInferenceSystem.output_range self)).
  assert (I : incl (FuzzyInferenceSystem.output_range self)
                   (distinct (FuzzyInferenceSystem.output_range self)))
    by (intros y Hy; now apply distinct_In).
  split.
  - intro He. apply aggregate_raises; try assumption.
    intro g. now rewrite He.
  - intros d ys1 y ys2 Hd Hys Hok He.
    apply aggregate_raises; try assumption.
    intro g. rewrite Hd. simpl.
    rewrite Hys in *. now apply clip_into_raises.
Qed.

(** The demo engine asked about a record without a speed. *)
Lemma infer_raises_first_failure_witness :
  FuzzyInferenceSystem.infer engine [("pace"%string, num 30)]
  = raise (KeyError "speed").
Proof.
  refine (proj1 (@infer_raises_first_failure
                   engine [] [] _ [("pace"%string, num 30)] (KeyError "speed")
                   eq_refl (Forall_nil _)) _).
  reflexivity.
Defined.

(** ** What the inferred mapping looks like *)

Lemma py_max_zero (c : Qc) : 0 <= c -> py_max 0 c = c.
Proof. intro. unfold py_max, Qcgtb. cmp_cases; qc_lra. Qed.

Lemma py_min_above (d m : Qc) : m <= d -> py_min d m = m.
Proof. intro. unfold py_min. cmp_cases; qc_lra. Qed.

(** X14.  A system with a single rule that fires with a degree of at least 0
    maps every output point to the consequent's degree clipped at the firing
    degree; with a firing degree of at least 1 that is the consequent's
    degree itself. *)
Theorem single_rule_clips (self : FuzzyInferenceSystem.t) (r : FuzzyRule.t)
        (inp : inputs) (d : Qc) :
  FuzzyInferenceSystem.rules self = [r] ->
  fires inp (FuzzyInferenceSystem.output_range self) r ->
  FuzzyRule.antecedent r inp = ok d -> 0 <= d ->
  exists agg,
    FuzzyInferenceSystem.infer self inp = ok agg /\
    forall y, In y (FuzzyInferenceSystem.output_range self) ->
      exists m,
        MembershipFunction.call (FuzzySet.mu (FuzzyRule.consequent r)) y = ok m
        /\ dict_get y agg = ok (py_min d m)
        /\ (1 <= d -> dict_get y agg = ok m).
Proof.
  intros Hr Hf Hd Hpos.
  assert (F : Forall (fires inp (FuzzyInferenceSystem.output_range self))
                     (FuzzyInferenceSystem.rules self))
    by (rewrite Hr; now constructor).
  eexists. split; [apply (infer_table _ F)|].
  intros y Hy. destruct Hf as [_ Hc].
  pose proof (is_ok_value _ (Hc y Hy)) as Hm.
  exists (value_of (MembershipFunction.call
                      (FuzzySet.mu (FuzzyRule.consequent r)) y)).
  split; [exact Hm|].
  rewrite dict_get_table by (now apply distinct_In).
  rewrite Hr. unfold aggregated_from. simpl.
  assert (C : clipped inp y r
              = py_min d (value_of (MembershipFunction.call
                                      (FuzzySet.mu (FuzzyRule.consequent r)) y)))
    by (unfold clipped; now rewrite Hd).
  rewrite py_max_zero by (apply clipped_nonneg; now rewrite Hd).
  rewrite C. split; [reflexivity|].
  intro H1. f_equal. apply py_min_above.
  eapply Qcle_trans; [apply (call_bounds _ _ Hm) | exact H1].
Qed.

Lemma single_rule_clips_witness :
  exists agg m,
    FuzzyInferenceSystem.infer engine [("speed"%string, num 30)] = ok agg /\
    MembershipFunction.call (FuzzySet.mu output) (num 10) = ok m /\
    dict_get (num 10) agg = ok (py_min (Q2Qc (2 # 5)) m).
Proof.
  destruct (@single_rule_clips engine _ [("speed"%string, num 30)]
                               (Q2Qc (2 # 5)) eq_refl)
    as (agg & H & P).
  - pose proof engine_fires as F. inversion F. assumption.
  - qc_compute.
  - discriminate.
  - destruct (P (num 10)) as (m & Hm & Hv & _); [vm_compute; tauto|].
    exists agg, m. repeat split; assumption.
Defined.

Lemma distinct_idem (ys : list Qc) : distinct (distinct ys) = distinct ys.
Proof. apply distinct_id, distinct_NoDup. Qed.

Lemma fires_incl (inp : inputs) (ys ys' : list Qc) (r : FuzzyRule.t) :
  incl ys' ys -> fires inp ys r -> fires inp ys' r.
Proof. intros I [Ha Hc]. split; [assumption | auto]. Qed.

(** X15.  [infer] looks neither at the input universe of the system nor at
    repetitions in its output range: a system with another input universe
    and with every output point listed once infers the same mapping. *)
Theorem infer_ignores_universe_and_repeats
        (u u' ys : list Qc) (rs : list FuzzyRule.t) (inp : inputs) (agg : dict) :
  FuzzyInferenceSystem.infer (FuzzyInferenceSystem.Make u ys rs) inp = ok agg ->
  FuzzyInferenceSystem.infer (FuzzyInferenceSystem.Make u' (distinct ys) rs) inp
  = ok agg.
Proof.
  intro H. pose proof (infer_ok _ _ H) as F.
  rewrite (infer_table (FuzzyInferenceSystem.Make u ys rs) F) in H.
  simpl in H, F. rewrite <- H.
  rewrite infer_table; simpl.
  - now rewrite distinct_idem.
  - eapply Forall_impl; [|exact F].
    intros r. apply fires_incl. intros y Hy. now apply distinct_In.
Qed.

Lemma infer_ignores_universe_and_repeats_witness :
  exists agg,
    FuzzyInferenceSystem.infer
      (FuzzyInferenceSystem.Make coarse [num 10; num 40; num 10] [low_rule])
      [("speed"%string, num 30)] = ok agg /\
    FuzzyInferenceSystem.infer
      (FuzzyInferenceSystem.Make [] (distinct [num 10; num 40; num 10])
                                 [low_rule])
      [("speed"%string, num 30)] = ok agg.
Proof.
  destruct (returns_ok (FuzzyInferenceSystem.infer
      (FuzzyInferenceSystem.Make coarse [num 10; num 40; num 10] [low_rule])
      [("speed"%string, num 30)])) as [agg E]; [vm_compute; reflexivity|].
  exists agg. split; [exact E|].
  exact (@infer_ignores_universe_and_repeats coarse [] _ _ _ _ E).
Defined.

(** ** Defuzzification *)

Lemma defuzzify_cases (self : FuzzyInferenceSystem.t) (agg : dict) :
  FuzzyInferenceSystem.defuzzify self agg
  = if Qceqb (sum_degrees agg) 0 then ok 0
    else ok (sum_weighted agg / sum_degrees agg).
Proof.
  unfold FuzzyInferenceSystem.defuzzify, py_div.
  rewrite py_sum_weighted, py_sum_degrees.
  now destruct (Qceqb (sum_degrees agg) 0).
Qed.

Lemma sum_degrees_table_zero (ks : list Qc) :
  sum_degrees (table ks (fun _ => 0)) = 0.
Proof.
  induction ks as [|k ks IH]; simpl; [reflexivity|].
  rewrite IH. apply Qcplus_0_l.
Qed.


Lemma sum_degrees_nonneg (agg : dict) :
  (forall y v, In (y, v) agg -> 0 <= v) -> 0 <= sum_degrees agg.
Proof.
  induction agg as [|[y v] agg IH]; intro H; simpl; [apply Qcle_refl|].
  assert (0 <= v) by (apply (H y); now left).
  assert (0 <= sum_degrees agg) by (apply IH; intros; eapply H; right; eauto).
  qc_lra.
Qed.

Lemma weight_le (p q v : Qc) : 0 <= v -> (0 < v -> p <= q) -> p * v <= q * v.
Proof.
  intros Hv H. destruct (Qcle_lt_or_eq _ _ Hv) as [L | <-].
  - apply Qcmult_le_compat_r; auto.
  - rewrite !Qcmult_0_r. apply Qcle_refl.
Qed.

Lemma sum_weighted_lower (lo : Qc) (agg : dict) :
  (forall y v, In (y, v) agg -> 0 <= v /\ (0 < v -> lo <= y)) ->
  lo * sum_degrees agg <= sum_weighted agg.
Proof.
  induction agg as [|[y v] agg IH]; intro H; simpl.
  - rewrite Qcmult_0_r. apply Qcle_refl.
  - rewrite Qcmult_plus_distr_r. apply Qcplus_le_compat.
    + destruct (H y v) as [Hv Hy]; [now left|]. now apply weight_le.
    + apply IH. intros; apply H; now right.
Qed.

Lemma sum_weighted_upper (hi : Qc) (agg : dict) :
  (forall y v, In (y, v) agg -> 0 <= v /\ (0 < v -> y <= hi)) ->
  sum_weighted agg <= hi * sum_degrees agg.
Proof.
  induction agg as [|[y v] agg IH]; intro H; simpl.
  - rewrite Qcmult_0_r. apply Qcle_refl.
  - rewrite Qcmult_plus_distr_r. apply Qcplus_le_compat.
    + destruct (H y v) as [Hv Hy]; [now left|]. now apply weight_le.
    + apply IH. intros; apply H; now right.
Qed.

Lemma centroid_within (lo hi : Qc) (agg : dict) :
  (forall y v, In (y, v) agg -> 0 <= v /\ (0 < v -> lo <= y <= hi)) ->
  sum_degrees agg <> 0 ->
  lo <= sum_weighted agg / sum_degrees agg <= hi.
Proof.
  intros H Hne.
  assert (P : 0 < sum_degrees agg).
  { assert (0 <= sum_degrees agg)
      by (apply sum_degrees_nonneg; intros y v Hin; now apply (H y v)).
    destruct (Qcle_lt_or_eq _ _ H0) as [L | E]; [assumption | congruence]. }
  assert (E : sum_weighted agg / sum_degrees agg * sum_degrees agg
              = sum_weighted agg)
    by (rewrite Qcmult_comm; now apply Qcmult_div_r).
  split; apply Qcmult_lt_0_le_reg_r with (z := sum_degrees agg);
    try assumption; rewrite E.
  - apply sum_weighted_lower. intros y v Hin. destruct (H y v Hin). tauto.
  - apply sum_weighted_upper. intros y v Hin. destruct (H y v Hin). tauto.
Qed.

Lemma centroid_between (lo hi : Qc) (agg : dict) :
  (forall y v, In (y, v) agg -> 0 <= v /\ lo <= y <= hi) ->
  sum_degrees agg <> 0 ->
  lo <= sum_weighted agg / sum_degrees agg <= hi.
Proof.
  intros H. apply centroid_within.
  intros y v Hin. destruct (H y v Hin). tauto.
Qed.

(** ** The thermostat *)

Ltac num_lra := unfold num, inject_Z in *; qc_lra.

Lemma trapezoidal_call_ok (a b c d y : Qc) :
  is_ok (MembershipFunction.call (trapezoidal a b c d) y).
Proof.
  destruct (trapezoidal_mu_total a b c d y) as [raw H].
  erewrite call_of_raw by exact H. exact I.
Qed.

Lemma mu_built_total (m : MembershipFunction.t) (u : list Qc) :
  (forall x, is_ok (MembershipFunction.call m x)) ->
  FuzzySet.mu (built (FuzzySet.init m u)) = m.
Proof. intro H. now rewrite init_returns by auto. Qed.

Lemma mu_triangular_set (a b c : Qc) (u : list Qc) :
  FuzzySet.mu (built (FuzzySet.init (triangular a b c) u)) = triangular a b c.
Proof. apply mu_built_total. intro. apply triangular_call_ok. Qed.

Lemma mu_trapezoidal_set (a b c d : Qc) (u : list Qc) :
  FuzzySet.mu (built (FuzzySet.init (trapezoidal a b c d) u))
  = trapezoidal a b c d.
Proof. apply mu_built_total. intro. apply trapezoidal_call_ok. Qed.

(** The membership functions of the ten sets of the thermostat. *)
Ltac thermostat_sets :=
  unfold cold, cool, comfortable, warm, hot, high_cooling, moderate_cooling,
    no_change, moderate_heating, high_heating;
  repeat match goal with
  | |- context [FuzzySet.mu
                  (built (FuzzySet.init (triangular ?a ?b ?c) ?u))] =>
      rewrite (mu_triangular_set a b c u)
  | |- context [FuzzySet.mu
                  (built (FuzzySet.init (trapezoidal ?a ?b ?c ?d) ?u))] =>
      rewrite (mu_trapezoidal_set a b c d u)
  end.

Lemma temperature_is_reading (s : FuzzySet.t) (t : Qc) :
  temperature_is s [("temperature"%string, t)]
  = MembershipFunction.call (FuzzySet.mu s) t.
Proof. reflexivity. Qed.

Lemma reading_rule_fires (s c : FuzzySet.t) (t : Qc) (ys : list Qc) :
  (forall x, is_ok (MembershipFunction.call (FuzzySet.mu s) x)) ->
  (forall y, is_ok (MembershipFunction.call (FuzzySet.mu c) y)) ->
  fires [("temperature"%string, t)] ys (FuzzyRule.Make (temperature_is s) c).
Proof.
  intros Hs Hc. split.
  - cbn [FuzzyRule.antecedent]. rewrite temperature_is_reading. apply Hs.
  - intros y _. apply Hc.
Qed.

Lemma thermostat_fires (t : Qc) :
  Forall (fires [("temperature"%string, t)] power_universe) thermostat_rules.
Proof.
  unfold thermostat_rules.
  repeat (apply Forall_cons;
          [apply reading_rule_fires; intro; thermostat_sets;
           lazymatch goal with
           | |- is_ok (MembershipFunction.call (triangular _ _ _) _) =>
               apply triangular_call_ok
           | |- is_ok (MembershipFunction.call (trapezoidal _ _ _ _) _) =>
               apply trapezoidal_call_ok
           end|]).
  apply Forall_nil.
Qed.

Lemma num_le (z1 z2 : Z) : (z1 <= z2)%Z -> num z1 <= num z2.
Proof.
  intro H. unfold num, Qcle, Q2Qc. cbn [this]. rewrite !Qred_correct.
  now rewrite <- Zle_Qle.
Qed.

Lemma range_from_bounds (lo : Z) (len : nat) (y : Qc) :
  In y (range_from lo len) ->
  exists z, y = num z /\ (lo <= z < lo + Z.of_nat len)%Z.
Proof.
  revert lo. induction len as [|n IH]; intros lo H; [contradiction|].
  destruct H as [<- | H].
  - exists lo. split; [reflexivity | lia].
  - destruct (IH _ H) as (z & -> & Hz). exists z. split; [reflexivity | lia].
Qed.

Lemma power_universe_bounds (y : Qc) :
  In y power_universe -> num (-100) <= y <= num 100.
Proof.
  intro H. apply range_from_bounds in H. destruct H as (z & -> & Hz).
  simpl in Hz. split; apply num_le; lia.
Qed.

Lemma aggregated_from_unfired (inp : inputs) (y : Qc) (rs : list FuzzyRule.t) :
  (forall r, In r rs -> value_of (FuzzyRule.antecedent r inp) <= 0) ->
  aggregated_from 0 inp y rs = 0.
Proof.
  intro H. destruct (aggregated_from_max 0 inp y rs) as [HI HU].
  destruct HI as [<- | HI]; [reflexivity|].
  apply in_map_iff in HI. destruct HI as (r & E & Hr).
  apply Qcle_antisym; [|apply HU; now left].
  rewrite <- E. eapply Qcle_trans; [apply clipped_le_degree | now apply H].
Qed.

Lemma infer_unfired (self : FuzzyInferenceSystem.t) (inp : inputs) :
  Forall (fires inp (FuzzyInferenceSystem.output_range self))
         (FuzzyInferenceSystem.rules self) ->
  (forall r, In r (FuzzyInferenceSystem.rules self) ->
             value_of (FuzzyRule.antecedent r inp) <= 0) ->
  FuzzyInferenceSystem.infer self inp
  = ok (table (distinct (FuzzyInferenceSystem.output_range self))
              (fun _ => 0)).
Proof.
  intros F H. rewrite (infer_table _ F). f_equal.
  apply table_ext. intros y _. now apply aggregated_from_unfired.
Qed.

Lemma defuzzify_infer_between (self : FuzzyInferenceSystem.t) (inp : inputs)
      (agg : dict) (lo hi : Qc) :
  FuzzyInferenceSystem.infer self inp = ok agg ->
  (forall y, In y (FuzzyInferenceSystem.output_range self) -> lo <= y <= hi) ->
  lo <= 0 <= hi ->
  exists crisp,
    FuzzyInferenceSystem.defuzzify self agg = ok crisp /\ lo <= crisp <= hi.
Proof.
  intros H Hb H0.
  assert (V : forall y v, In (y, v) agg -> 0 <= v /\ lo <= y <= hi).
  { rewrite (infer_table _ (infer_ok _ _ H)) in H. inversion H; subst agg.
    intros y v Hin. apply In_table in Hin. destruct Hin as [Hy ->].
    split; [apply aggregated_from_bounds|].
    apply Hb. now apply distinct_In. }
  rewrite defuzzify_cases.
  destruct (Qceqb (sum_degrees agg) 0) eqn:E.
  - exists 0. split; [reflexivity | assumption].
  - apply Qceqb_neq in E. eexists. split; [reflexivity|].
    now apply centroid_between.
Qed.

Lemma action_named (power : Qc) : action power <> "No action"%string.
Proof.
  unfold action. cbv zeta.
  repeat match goal with
         | |- context [Qcltb ?x ?y] => destruct (Qcltb x y)
         end; discriminate.
Qed.

(** X19.  The action is always one of the five named ones, never the
    ["No action"] it starts as; each threshold belongs to the band above
    it. *)
Theorem action_bands (power : Qc) :
  action power <> "No action"%string /\
  (power < num (-60) <-> action power = "High cooling"%string) /\
  (num (-60) <= power < num (-20)
   <-> action power = "Moderate cooling"%string) /\
  (num (-20) <= power < num 20 <-> action power = "No change"%string) /\
  (num 20 <= power < num 60 <-> action power = "Moderate heating"%string) /\
  (num 60 <= power <-> action power = "High heating"%string).
Proof.
  split; [apply action_named|].
  unfold action. cbv zeta. cmp_cases;
    repeat split; intros; try discriminate; try reflexivity;
    try (exfalso; num_lra); try num_lra;
    try (match goal with H : _ /\ _ |- _ => destruct H end;
         exfalso; num_lra).
Qed.

(** X20.  The thermostat answers every temperature reading, inside the
    universe or not: the loop body raises nothing, the power it computes
    lies between -100 and 100, and the row carries one of the five named
    actions. *)
Theorem thermostat_answers (t : Qc) :
  exists power,
    thermostat_row t = ok (t, power, action power) /\
    num (-100) <= power <= num 100 /\
    action power <> "No action"%string.
Proof.
  pose proof (thermostat_fires t) as F.
  unfold thermostat_row. cbv zeta.
  rewrite (infer_table fis F).
  cbn [bind].
  destruct (@defuzzify_infer_between fis [("temperature"%string, t)] _
              (num (-100)) (num 100) (infer_table fis F))
    as (power & Hp & Hb).
  - apply power_universe_bounds.
  - split; discriminate.
  - exists power. rewrite Hp. cbn [bind].
    split; [reflexivity|]. split; [assumption | apply action_named].
Qed.

Lemma thermostat_idle (t : Qc) (r : FuzzyRule.t) :
  t <= num 0 \/ num 40 <= t -> In r thermostat_rules ->
  FuzzyRule.antecedent r [("temperature"%string, t)] = ok 0.
Proof.
  intros Ht Hr. unfold thermostat_rules in Hr. cbn [In] in Hr.
  repeat (destruct Hr as [<- | Hr]); try contradiction;
    cbn [FuzzyRule.antecedent]; rewrite temperature_is_reading;
    thermostat_sets;
    lazymatch goal with
    | |- MembershipFunction.call (triangular ?a ?b ?c) _ = _ =>
        rewrite (call_triangular a b c); apply triangular_mu_outside
    | |- MembershipFunction.call (trapezoidal ?a ?b ?c ?d) _ = _ =>
        rewrite (call_trapezoidal a b c d); apply trapezoidal_mu_outside
    end;
    (destruct Ht; [left | right]; num_lra).
Qed.

(** X21.  At 0 degrees and below and at 40 degrees and above no rule of the
    thermostat fires: the power is 0.0 and the action ["No change"], also at
    the two ends of the temperature universe, where [cold] and [hot] have
    their plateaus. *)
Theorem thermostat_idle_at_the_ends (t : Qc) :
  t <= num 0 \/ num 40 <= t ->
  thermostat_row t = ok (t, 0, "No change"%string).
Proof.
  intro Ht. unfold thermostat_row. cbv zeta.
  rewrite (@infer_unfired fis _ (thermostat_fires t)).
  - cbn [bind]. rewrite defuzzify_cases, sum_degrees_table_zero.
    rewrite Qceqb_refl. reflexivity.
  - intros r Hr. rewrite (@thermostat_idle t r Ht Hr). simpl. apply Qcle_refl.
Qed.

Lemma thermostat_idle_at_the_ends_witness :
  thermostat_row (num 40) = ok (num 40, 0, "No change"%string) /\
  thermostat_row (num 0) = ok (num 0, 0, "No change"%string).
Proof.
  split; apply thermostat_idle_at_the_ends;
    [right | left]; apply Qcle_refl.
Defined.

(** ** Union and intersection of constructed sets *)

Lemma binary_mf_call (f : pyfun) (n : option display_name)
      (ma mb : MembershipFunction.t) (op : Qc -> Qc -> Qc) (x va vb : Qc) :
  fn_call f x = (a <- MembershipFunction.call ma x ;;
                 b <- MembershipFunction.call mb x ;; ok (op a b)) ->
  (op va vb = va \/ op va vb = vb) ->
  MembershipFunction.call ma x = ok va ->
  MembershipFunction.call mb x = ok vb ->
  MembershipFunction.call (MembershipFunction.init f n) x = ok (op va vb).
Proof.
  intros Hf Hop Ha Hb.
  apply call_of_raw_unit.
  - rewrite func_init, Hf, Ha, Hb. reflexivity.
  - destruct Hop as [-> | ->];
      [apply (call_bounds _ _ Ha) | apply (call_bounds _ _ Hb)].
Qed.

(** X23.  The union and the intersection of two sets constructed over the
    same universe are always constructed; they keep that universe, their
    cached tables have the keys of the operands' tables, and they cache the
    greater, respectively the smaller, of the two cached degrees. *)
Theorem union_intersection_of_built (ma mb : MembershipFunction.t)
        (u : list Qc) (A B : FuzzySet.t) :
  FuzzySet.init ma u = ok A -> FuzzySet.init mb u = ok B ->
  exists U J,
    FuzzySet.union A B = ok U /\ FuzzySet.intersection A B = ok J /\
    FuzzySet.universe U = u /\ FuzzySet.universe J = u /\
    keys (FuzzySet.members U) = keys (FuzzySet.members A) /\
    keys (FuzzySet.members J) = keys (FuzzySet.members A) /\
    forall k va vb,
      In (k, va) (items (FuzzySet.members A)) ->
      In (k, vb) (items (FuzzySet.members B)) ->
      In (k, py_max va vb) (items (FuzzySet.members U)) /\
      In (k, py_min va vb) (items (FuzzySet.members J)).
Proof.
  intros HA HB.
  pose proof (init_calls_ok _ _ HA) as OA.
  pose proof (init_calls_ok _ _ HB) as OB.
  apply init_inv in HA. destruct HA as (HmA & HuA & HdA).
  apply init_inv in HB. destruct HB as (HmB & HuB & HdB).
  unfold FuzzySet.union, FuzzySet.intersection. rewrite HuA.
  assert (HU : forall x, In x u ->
     MembershipFunction.call
       (MembershipFunction.init
          (FuzzySet.union_func A B)
          (Some (or_ (MembershipFunction.name (FuzzySet.mu A))
                     (MembershipFunction.name (FuzzySet.mu B))))) x
     = ok (py_max (value_of (MembershipFunction.call ma x))
                  (value_of (MembershipFunction.call mb x)))).
  { intros x Hx. apply binary_mf_call with (ma := FuzzySet.mu A)
                                           (mb := FuzzySet.mu B).
    - reflexivity.
    - apply py_max_cases.
    - rewrite HmA. apply is_ok_value. now apply OA.
    - rewrite HmB. apply is_ok_value. now apply OB. }
  assert (HJ : forall x, In x u ->
     MembershipFunction.call
       (MembershipFunction.init
          (FuzzySet.intersection_func A B)
          (Some (and_ (MembershipFunction.name (FuzzySet.mu A))
                      (MembershipFunction.name (FuzzySet.mu B))))) x
     = ok (py_min (value_of (MembershipFunction.call ma x))
                  (value_of (MembershipFunction.call mb x)))).
  { intros x Hx. apply binary_mf_call with (ma := FuzzySet.mu A)
                                           (mb := FuzzySet.mu B).
    - reflexivity.
    - apply py_min_cases.
    - rewrite HmA. apply is_ok_value. now apply OA.
    - rewrite HmB. apply is_ok_value. now apply OB. }
  rewrite init_returns by (intros x Hx; now rewrite HU).
  rewrite init_returns by (intros x Hx; now rewrite HJ).
  eexists. eexists. split; [reflexivity|]. split; [reflexivity|]. simpl.
  split; [reflexivity|]. split; [reflexivity|].
  rewrite HdA, HdB, !keys_table. split; [reflexivity|]. split; [reflexivity|].
  intros k va vb Ha Hb. unfold items in *.
  apply In_table in Ha. destruct Ha as [Hk ->].
  apply In_table in Hb. destruct Hb as [_ ->].
  assert (Hku : In k u) by (now apply distinct_In).
  split; apply In_table; (split; [assumption|]).
  - now rewrite HU.
  - now rewrite HJ.
Qed.

Lemma union_intersection_of_built_witness :
  exists A B U J,
    FuzzySet.init (triangular (num 0) (num 0) (num 50)) coarse = ok A /\
    FuzzySet.init (triangular (num 25) (num 50) (num 75)) coarse = ok B /\
    FuzzySet.union A B = ok U /\ FuzzySet.intersection A B = ok J /\
    keys (FuzzySet.members U) = keys (FuzzySet.members A).
Proof.
  destruct (returns_ok (FuzzySet.init (triangular (num 0) (num 0) (num 50))
                                      coarse))
    as [A EA]; [vm_compute; reflexivity|].
  destruct (returns_ok (FuzzySet.init (triangular (num 25) (num 50) (num 75))
                                      coarse))
    as [B EB]; [vm_compute; reflexivity|].
  destruct (@union_intersection_of_built _ _ _ _ _ EA EB)
    as (U & J & HU & HJ & _ & _ & HK & _).
  exists A, B, U, J. repeat split; assumption.
Defined.
